(** * Cloud Speech API streaming relay: a shallow embedding

  The development follows the three source files of the repository:

  - [client/cloud-speech-api-client.js]  (module [Client]),
  - [server/cloud-speech-api-server.js]  (module [Adapter]),
  - [server/app.js]                      (module [Relay]).

  Definitions come first, the theorems about them afterwards. *)

From Stdlib Require Import ZArith QArith Qround Qminmax String Ascii List Lia Bool.
From Stdlib Require Import DecimalString Lqa.
From stdpp Require Import base list strings.
Import ListNotations.

Open Scope Z_scope.

(* ===================================================================== *)
(** * JavaScript numbers, as far as the sample conversion needs them      *)
(* ===================================================================== *)

Module Num.

(** A JavaScript number is an IEEE binary64 value.  The conversion only
    ever sees numbers read from a [Float32Array], i.e. binary32 values
    widened exactly to binary64: a NaN, an infinity, or a dyadic rational
    [m * 2^e] with [|m| < 2^24].  Finite values are kept as exact
    rationals. *)
Inductive number : Type :=
| NaN
| Infinity (negative : bool)
| Finite (q : Q).

(** The significand of a binary32 value has at most 24 bits. *)
Definition float32_significand (m : Z) : Prop := Z.abs m < 2 ^ 24.

(** binary64 holds every integer significand below [2^53] exactly. *)
Definition float64_significand (m : Z) : Prop := Z.abs m < 2 ^ 53.

(** [Math.min(a, b)]: NaN if either argument is NaN, else the smaller. *)
Definition Math_min (a b : number) : number :=
  match a, b with
  | NaN, _ | _, NaN => NaN
  | Infinity true, _ | _, Infinity true => Infinity true
  | Infinity false, y => y
  | x, Infinity false => x
  | Finite x, Finite y => if Qle_bool x y then Finite x else Finite y
  end.

(** [a * k] for a positive integer constant [k].  On the values the
    conversion multiplies (a binary32 significand times the 15-bit
    constant [0x7FFF]) the binary64 product is exact, see
    [product_is_exact] below, so no rounding step appears here. *)
Definition mul_const (a : number) (k : positive) : number :=
  match a with
  | NaN => NaN
  | Infinity s => Infinity s
  | Finite q => Finite (q * (Zpos k # 1))
  end.

(** [sign(q) * floor(abs(q))]: the integer part, rounding toward zero. *)
Definition truncate (q : Q) : Z := Z.quot (Qnum q) (Zpos (Qden q)).

(** ECMAScript [ToInt16], applied by every store into an [Int16Array]:
    NaN and the infinities become 0, a finite value is truncated toward
    zero, reduced modulo [2^16] and read as a two's complement 16-bit
    integer. *)
Definition ToInt16 (a : number) : Z :=
  match a with
  | NaN | Infinity _ => 0
  | Finite q =>
      let int16bit := (truncate q) mod 2 ^ 16 in
      if 2 ^ 15 <=? int16bit then int16bit - 2 ^ 16 else int16bit
  end.

(** [Math.round]: the nearest integer, ties toward plus infinity. *)
Definition Math_round (q : Q) : Z := Qfloor (q + (1 # 2)).

End Num.

(* ===================================================================== *)
(** * JavaScript values exchanged over the socket                         *)
(* ===================================================================== *)

Module JS.

#[local] Unset Elimination Schemes.

(** The values a client can put into an options or parameters payload.
    An object is the list of its own enumerable properties in
    [Object.keys] order; an array is the object keyed by its indices.
    Numbers are kept as integers: the server only ever tests them for
    truth and copies them. *)
Inductive value : Type :=
| VUndefined
| VNull
| VBool (b : bool)
| VNum (n : Z)
| VStr (s : string)
| VObj (props : list (string * value)).

#[local] Set Elimination Schemes.

Definition object : Type := list (string * value).

Inductive exn : Type :=
| TypeError (message : string).

(** The result of evaluating an expression that may throw. *)
Inductive result (A : Type) : Type :=
| Ok (a : A)
| Throw (e : exn).
Arguments Ok {A} a.
Arguments Throw {A} e.

(** [if (v)]: ToBoolean. *)
Definition truthy (v : value) : bool :=
  match v with
  | VUndefined | VNull => false
  | VBool b => b
  | VNum n => negb (n =? 0)
  | VStr s => negb (String.eqb s "")
  | VObj _ => true
  end.

(** [typeof v === 'object']; note that [typeof null] is ['object']. *)
Definition typeof_object (v : value) : bool :=
  match v with
  | VNull | VObj _ => true
  | _ => false
  end.

(** Own property lookup by name. *)
Fixpoint lookup_prop (o : object) (k : string) : option value :=
  match o with
  | [] => None
  | (k', v) :: o' => if String.eqb k' k then Some v else lookup_prop o' k
  end.

Definition has_prop (o : object) (k : string) : bool :=
  match lookup_prop o k with Some _ => true | None => false end.

(** [o[k] = v] on an object: an existing property keeps its place, a new
    one is added at the end. *)
Fixpoint set_prop (o : object) (k : string) (v : value) : object :=
  match o with
  | [] => [(k, v)]
  | (k', v') :: o' =>
      if String.eqb k' k then (k', v) :: o' else (k', v') :: set_prop o' k v
  end.

(** The canonical decimal name of an array or string index. *)
Definition index_key (i : nat) : string :=
  NilEmpty.string_of_uint (Nat.to_uint i).

Definition index_keys (n : nat) : list string := map index_key (seq 0 n).

Definition is_index_key (n : nat) (k : string) : bool :=
  existsb (String.eqb k) (index_keys n).

(** The character of [s] named by the index key [k], if any. *)
Definition string_char (s : string) (k : string) : option string :=
  match find (fun i => String.eqb k (index_key i)) (seq 0 (String.length s)) with
  | Some i =>
      match String.get i s with
      | Some c => Some (String c EmptyString)
      | None => None
      end
  | None => None
  end.

(** A property read [v[k]] (or [v.k]).  Reading from [undefined] or
    [null] throws; a primitive has no own properties besides the indices
    and the length of a string.  The names the server reads are never
    names of [Object.prototype], so inherited properties play no role. *)
Definition get (v : value) (k : string) : result value :=
  match v with
  | VUndefined | VNull => Throw (TypeError "Cannot read property of undefined or null")
  | VBool _ | VNum _ => Ok VUndefined
  | VStr s =>
      if String.eqb k "length" then Ok (VNum (Z.of_nat (String.length s)))
      else match string_char s k with
           | Some c => Ok (VStr c)
           | None => Ok VUndefined
           end
  | VObj o => Ok (default VUndefined (lookup_prop o k))
  end.

(** The method call [v.hasOwnProperty(k)].  The method is inherited from
    [Object.prototype]; an own property of that name shadows it, and no
    value sent over the socket is callable.  The engine's message for
    that [TypeError] quotes the expression called at each call site (as
    in [parameters.hasOwnProperty is not a function]); the text kept
    here is the part all call sites share. *)
Definition hasOwnProperty (v : value) (k : string) : result bool :=
  match v with
  | VUndefined | VNull => Throw (TypeError "Cannot read property 'hasOwnProperty' of undefined or null")
  | VBool _ | VNum _ => Ok false
  | VStr s => Ok (String.eqb k "length" || is_index_key (String.length s) k)
  | VObj o =>
      if has_prop o "hasOwnProperty"
      then Throw (TypeError "hasOwnProperty is not a function")
      else Ok (has_prop o k)
  end.

(** [Object.keys(v)] (ES2015: the argument is coerced with ToObject). *)
Definition Object_keys (v : value) : result (list string) :=
  match v with
  | VUndefined | VNull => Throw (TypeError "Cannot convert undefined or null to object")
  | VBool _ | VNum _ => Ok []
  | VStr s => Ok (index_keys (String.length s))
  | VObj o => Ok (map fst o)
  end.

(** The assignment [v[k] = x] in strict mode: only an object accepts it. *)
Definition assign (v : value) (k : string) (x : value) : result value :=
  match v with
  | VObj o => Ok (VObj (set_prop o k x))
  | _ => Throw (TypeError "Cannot assign to property of a primitive value")
  end.

End JS.

(* ===================================================================== *)
(** * Messages on the two wires                                           *)
(* ===================================================================== *)

Module Wire.

(** An error object (an [Error] of the auth or transport library, or the
    [error] status embedded in a cloud response), kept by its message. *)
Definition error : Type := string.

(** One recognition result: its alternatives' transcripts and the
    finality flag. *)
Record recognition_result : Type := {
  alternatives : list string;
  isFinal : bool
}.

(** A binary audio buffer: the 16-bit samples the client produced. *)
Definition audio : Type := list Z.

(** The payload of a server-to-client event.  A field the server leaves
    out of the object literal is [None]; so is an [error] that is
    [null]. *)
Record payload : Type := {
  recording : option bool;
  data : option (list recognition_result);
  error_ : option error
}.

(** An event on the socket: its name and its payload. *)
Definition emitted : Type := (string * payload)%type.

End Wire.

(* ===================================================================== *)
(** * client/cloud-speech-api-client.js                                   *)
(* ===================================================================== *)

Module Client.
Import Num.

(** The right-hand side of the loop body,
    [Math.min(1, buffer[l]) * 0x7FFF], stored into [buf[l]]. *)
Definition convert_sample (x : number) : Z :=
  ToInt16 (mul_const (Math_min (Finite 1) x) 32767).

(** A read [buffer[l]]; outside the buffer JavaScript yields
    [undefined], which the arithmetic turns into NaN. *)
Definition read_sample (buffer : list number) (l : nat) : number :=
  default NaN (buffer !! l).

(** [while (l--) { buf[l] = ... }]: the test reads [l], decrements it,
    and the body runs with the decremented index. *)
Fixpoint convert_loop (buffer : list number) (l : nat) (buf : list Z) : list Z :=
  match l with
  | O => buf
  | S l' => convert_loop buffer l' (<[l' := convert_sample (read_sample buffer l')]> buf)
  end.

(** [convertFloat32ToInt16]: [new Int16Array(l)] is zero-filled; what is
    returned is the array's underlying buffer, kept here as its samples. *)
Definition convertFloat32ToInt16 (buffer : list number) : list Z :=
  let l := length buffer in
  convert_loop buffer l (replicate l 0).

(** The same loop, instrumented with the list of indices it has read,
    most recent first.  It is used only to state how often each sample
    is visited. *)
Fixpoint convert_loop_reads (buffer : list number) (l : nat)
    (buf : list Z) (reads : list nat) : list Z * list nat :=
  match l with
  | O => (buf, reads)
  | S l' =>
      convert_loop_reads buffer l'
        (<[l' := convert_sample (read_sample buffer l')]> buf) (l' :: reads)
  end.


(** ** File submission *)

(** [s.indexOf(pat)]: the position of the first occurrence, or -1. *)
Fixpoint indexOf_from (s pat : string) (i : Z) : Z :=
  if String.prefix pat s then i
  else match s with
       | EmptyString => -1
       | String _ s' => indexOf_from s' pat (i + 1)
       end.

Definition indexOf (s pat : string) : Z := indexOf_from s pat 0.

(** [s.substring(start, end)]: both bounds are clamped to the string and
    swapped when they come in the wrong order. *)
Definition js_substring (s : string) (start end_ : Z) : string :=
  let len := Z.of_nat (String.length s) in
  let a := Z.min (Z.max start 0) len in
  let b := Z.min (Z.max end_ 0) len in
  let from := Z.min a b in
  let to := Z.max a b in
  String.substring (Z.to_nat from) (Z.to_nat (to - from)) s.

(** [s.substring(start)]: up to the end of the string. *)
Definition js_substring_from (s : string) (start : Z) : string :=
  js_substring s start (Z.of_nat (String.length s)).

(** [toLowerCase] on the ASCII range, where MIME types live. *)
Definition lower_ascii (c : ascii) : ascii :=
  let n := nat_of_ascii c in
  if (65 <=? n)%nat && (n <=? 90)%nat then ascii_of_nat (n + 32) else c.

Fixpoint toLowerCase (s : string) : string :=
  match s with
  | EmptyString => EmptyString
  | String c s' => String (lower_ascii c) (toLowerCase s')
  end.

(** The MIME subtype as [reader.onload] extracts it from the data URL. *)
Definition fileType (result : string) : string :=
  js_substring result (indexOf result "audio/" + 6) (indexOf result ";").

(** The [parameters] object [reader.onload] sends along. *)
Definition file_parameters (result : string) : JS.object :=
  let parameters :=
    [("language", JS.VStr "en-US");
     ("encoding", JS.VStr "LINEAR16");
     ("sampleRate", JS.VNum 16000)] in
  if String.eqb (toLowerCase (fileType result)) "flac"
  then JS.set_prop parameters "encoding" (JS.VStr "FLAC")
  else parameters.

(** [reader.onload]: the arguments of
    [socket.emit('recogniseFile', payload, parameters)]. *)
Definition processFileField_onload (result : string) : string * JS.object :=
  (js_substring_from result (indexOf result "," + 1), file_parameters result).

(** ** Events coming back from the server *)

(** The client's own view of the session: the [isRecording] flag, the
    audio context ([None]: none was created, [Some true]: open,
    [Some false]: closed), and the invocations of the caller's
    callbacks, oldest first. *)
Record state : Type := {
  isRecording : bool;
  audioContext : option bool;
  called : list (string * Wire.payload)
}.

(** The three [socket.on] registrations.  An event of any other name has
    no listener and is dropped by the socket library. *)
Definition socket_on (name : string) (response : Wire.payload) (c : state) : state :=
  if String.eqb name "recordingStatusChange" then
    match Wire.recording response with
    | Some true =>
        {| isRecording := true;
           audioContext := audioContext c;
           called := called c ++ [("onStatusChange", response)] |}
    | _ =>
        {| isRecording := false;
           audioContext := match audioContext c with
                           | Some _ => Some false
                           | None => None
                           end;
           called := called c ++ [("onStatusChange", response)] |}
    end
  else if String.eqb name "recordingData" then
    {| isRecording := isRecording c;
       audioContext := audioContext c;
       called := called c ++ [("onData", response)] |}
  else if String.eqb name "recordingError" then
    {| isRecording := isRecording c;
       audioContext := audioContext c;
       called := called c ++ [("onError", response)] |}
  else c.

End Client.

(* ===================================================================== *)
(** * server/cloud-speech-api-server.js                                   *)
(* ===================================================================== *)

Module Adapter.
Import JS Wire.

(** A handle on one bidirectional streaming call, as returned by
    [speechService.streamingRecognize()]. *)
Definition stream_id : Type := nat.

(** What [speechClient.write] sends: [{streamingConfig: ...}] or
    [{audioContent: ...}]. *)
Inductive stream_message : Type :=
| StreamingConfig (streamingConfig : object)
| AudioContent (audioContent : audio).

(** The calls the adapter makes on the cloud client library. *)
Inductive cloud_call : Type :=
| StreamingRecognize (id : stream_id)
| StreamWrite (id : stream_id) (m : stream_message)
| StreamEnd (id : stream_id)
| NonStreamingRecognize (initialRequest : object) (content : string).

(** The variables closed over by one [CloudSpeechApi] instance. *)
Record state : Type := {
  speechClient : option stream_id;
  initialRequest : bool;
  streamingOptions : object;
  nonStreamingOptions : object
}.

Definition default_streamingOptions : object :=
  [("config", VObj [("encoding", VStr "LINEAR16");
                    ("sampleRate", VNum 41000);
                    ("languageCode", VStr "en-US");
                    ("profanityFilter", VBool true);
                    ("speechContext", VNull)]);
   ("interimResults", VBool true);
   ("singleUtterance", VBool false)].

Definition default_nonStreamingOptions : object :=
  [("encoding", VStr "LINEAR16");
   ("sampleRate", VNum 16000);
   ("languageCode", VStr "en-US");
   ("continuous", VBool false);
   ("enableEndpointerEvents", VBool false)].

Definition init : state :=
  {| speechClient := None;
     initialRequest := true;
     streamingOptions := default_streamingOptions;
     nonStreamingOptions := default_nonStreamingOptions |}.

Definition set_speechClient (st : state) (c : option stream_id) : state :=
  {| speechClient := c;
     initialRequest := initialRequest st;
     streamingOptions := streamingOptions st;
     nonStreamingOptions := nonStreamingOptions st |}.

Definition set_initialRequest (st : state) (b : bool) : state :=
  {| speechClient := speechClient st;
     initialRequest := b;
     streamingOptions := streamingOptions st;
     nonStreamingOptions := nonStreamingOptions st |}.

Definition set_streamingOptions (st : state) (o : object) : state :=
  {| speechClient := speechClient st;
     initialRequest := initialRequest st;
     streamingOptions := o;
     nonStreamingOptions := nonStreamingOptions st |}.

Definition set_nonStreamingOptions (st : state) (o : object) : state :=
  {| speechClient := speechClient st;
     initialRequest := initialRequest st;
     streamingOptions := streamingOptions st;
     nonStreamingOptions := o |}.

(** ** getSpeechService *)

(** How [googleAuthClient.getAuthClient] answers. *)
Inductive auth_result : Type :=
| AuthFailed (err : error)
| AuthClient.

(** The single argument [getSpeechService] hands to its callback: the
    error object on [return callback(err)], the stub otherwise. *)
Inductive service_arg : Type :=
| NotAService (err : error)
| SpeechService.

Definition getSpeechService (r : auth_result) : service_arg :=
  match r with
  | AuthFailed err => NotAService err
  | AuthClient => SpeechService
  end.

(** ** recogniseFile *)

(** The object passed to the caller's callback. *)
Record file_response : Type := {
  success : bool;
  response_data : option (list recognition_result);
  response_error : option error
}.

(** One entry of [response.responses]. *)
Record recognize_response : Type := {
  results : list recognition_result
}.

(** How [nonStreamingRecognize] answers its [(error, response)]
    callback; [responses] is [response.responses]. *)
Inductive rpc_result : Type :=
| RpcFailed (err : error)
| RpcResponse (responses : list recognize_response).

(** The loop over [requestKeys]: it writes into [initialRequest], which
    is the very object [nonStreamingOptions]. *)
Fixpoint merge_parameters (initialRequest : object) (parameters : value)
    (requestKeys : list string) : object * option exn :=
  match requestKeys with
  | [] => (initialRequest, None)
  | k :: rest =>
      match hasOwnProperty parameters k with
      | Throw e => (initialRequest, Some e)
      | Ok false => merge_parameters initialRequest parameters rest
      | Ok true =>
          match get parameters k with
          | Throw e => (initialRequest, Some e)
          | Ok v => merge_parameters (set_prop initialRequest k v) parameters rest
          end
      end
  end.

(** The synchronous part of [recogniseFile]: the merge and the request.
    The proto constructors copy the fields they are given. *)
Definition recogniseFile (st : state) (audioData : string) (parameters : value)
    : state * result (object * string) :=
  let initialRequest := nonStreamingOptions st in
  let '(merged, thrown) :=
    if truthy parameters
    then merge_parameters initialRequest parameters (map fst initialRequest)
    else (initialRequest, None) in
  (set_nonStreamingOptions st merged,
   match thrown with
   | Some e => Throw e
   | None => Ok (merged, audioData)
   end).

(** The callback given to [getSpeechService]: it calls a method on its
    argument, whatever that argument is. *)
Definition recogniseFile_service (svc : service_arg) (request : object * string)
    : result cloud_call :=
  match svc with
  | NotAService _ =>
      Throw (TypeError "speechService.nonStreamingRecognize is not a function")
  | SpeechService => Ok (NonStreamingRecognize (fst request) (snd request))
  end.

(** The callback given to [nonStreamingRecognize]: what it passes to the
    caller's callback, unless [response.responses[0]] is undefined. *)
Definition recogniseFile_response (r : rpc_result) : result file_response :=
  match r with
  | RpcFailed err =>
      Ok {| success := false; response_data := None; response_error := Some err |}
  | RpcResponse [] =>
      Throw (TypeError "Cannot read property 'results' of undefined")
  | RpcResponse (r0 :: _) =>
      Ok {| success := true; response_data := Some (results r0); response_error := None |}
  end.

(** A whole [recogniseFile] call seen from its caller, once the auth
    provider and the cloud (if it was reached) have answered: the
    adapter state, the cloud calls made, the invocations of the caller's
    callback, and the exception thrown, if any. *)
Definition recogniseFile_run (st : state) (audioData : string) (parameters : value)
    (a : auth_result) (r : rpc_result)
    : state * list cloud_call * list file_response * option exn :=
  match recogniseFile st audioData parameters with
  | (st', Throw e) => (st', [], [], Some e)
  | (st', Ok request) =>
      match recogniseFile_service (getSpeechService a) request with
      | Throw e => (st', [], [], Some e)
      | Ok call =>
          match recogniseFile_response r with
          | Throw e => (st', [call], [], Some e)
          | Ok response => (st', [call], [response], None)
          end
      end
  end.

(** ** startRecording *)

Inductive status_type : Type :=
| type_data
| type_status
| type_error.

(** The object passed to the [startRecording] callback:
    [{type, recording, data?, error}]. *)
Record status : Type := {
  type : status_type;
  status_recording : bool;
  status_data : option (list recognition_result);
  status_error : option error
}.

(** What one adapter operation does: the state it leaves, the cloud
    calls it makes, the statuses it passes to the [startRecording]
    callback, and the exception it throws, if any. *)
Record outcome : Type := {
  next : state;
  calls : list cloud_call;
  callbacks : list status;
  thrown : option exn
}.

(** The loop over [innerOptionsKeys]; [target] is
    [streamingOptions[optionsKeys[i]]], mutated in place. *)
Fixpoint merge_inner (target : value) (innerOptions : value)
    (innerOptionsKeys : list string) : value * option exn :=
  match innerOptionsKeys with
  | [] => (target, None)
  | ik :: rest =>
      match hasOwnProperty target ik with
      | Throw e => (target, Some e)
      | Ok false => merge_inner target innerOptions rest
      | Ok true =>
          match get innerOptions ik with
          | Throw e => (target, Some e)
          | Ok v =>
              match assign target ik v with
              | Throw e => (target, Some e)
              | Ok target' => merge_inner target' innerOptions rest
              end
          end
      end
  end.

(** The loop over [optionsKeys], writing into [streamingOptions]. *)
Fixpoint merge_options (streamingOptions : object) (options : value)
    (optionsKeys : list string) : object * option exn :=
  match optionsKeys with
  | [] => (streamingOptions, None)
  | k :: rest =>
      match hasOwnProperty (VObj streamingOptions) k with
      | Throw e => (streamingOptions, Some e)
      | Ok false => merge_options streamingOptions options rest
      | Ok true =>
          match get options k with
          | Throw e => (streamingOptions, Some e)
          | Ok v =>
              if typeof_object v then
                match Object_keys v with
                | Throw e => (streamingOptions, Some e)
                | Ok innerOptionsKeys =>
                    let target := default VUndefined (lookup_prop streamingOptions k) in
                    let '(target', thrown) := merge_inner target v innerOptionsKeys in
                    let streamingOptions' := set_prop streamingOptions k target' in
                    match thrown with
                    | Some e => (streamingOptions', Some e)
                    | None => merge_options streamingOptions' options rest
                    end
                end
              else merge_options (set_prop streamingOptions k v) options rest
          end
      end
  end.

(** [if (options) { ... }]: the whole merge. *)
Definition merge_streaming (streamingOptions : object) (options : value)
    : object * option exn :=
  if truthy options then
    match Object_keys options with
    | Throw e => (streamingOptions, Some e)
    | Ok optionsKeys => merge_options streamingOptions options optionsKeys
    end
  else (streamingOptions, None).

(** A key the merge accepts: [streamingOptions.hasOwnProperty(k)]
    returns true. *)
Definition recognised (streamingOptions : object) (k : string) : bool :=
  match hasOwnProperty (VObj streamingOptions) k with
  | Ok true => true
  | _ => false
  end.

(** The client's options with the keys the merge does not accept taken
    out. *)
Definition recognised_only (streamingOptions : object) (o : object) : object :=
  List.filter (fun kv => recognised streamingOptions (fst kv)) o.

(** Every object-valued entry of [so'] stems from an object-valued
    entry of [so] with the same keys. *)
Definition inner_keys_from (so so' : object) : Prop :=
  forall k t', lookup_prop so' k = Some (VObj t') ->
    exists t, lookup_prop so k = Some (VObj t) /\ map fst t' = map fst t.

(** [v[j]], when [v] is an object that has [j]. *)
Definition lookup_in (v : value) (j : string) : option value :=
  match v with
  | VObj t => lookup_prop t j
  | _ => None
  end.

(** [o[k][j]], when [o[k]] is an object that has [j]. *)
Definition inner_lookup (o : object) (k j : string) : option value :=
  match lookup_prop o k with
  | Some v => lookup_in v j
  | None => None
  end.

(** The options of a start request say nothing about [k.j]: they have
    no [k], or their [k] is an object without [j]. *)
Definition omits (options : value) (k j : string) : bool :=
  match options with
  | VUndefined | VNull | VBool _ | VNum _ => true
  | VStr s => negb (is_index_key (String.length s) k)
  | VObj o =>
      match lookup_prop o k with
      | None => true
      | Some (VObj innerOptions) => negb (has_prop innerOptions j)
      | Some _ => false
      end
  end.

(** The current options take an override of [k.j]: [so[k]] is an object
    that has [j] and no property named [hasOwnProperty]. *)
Definition accepts (so : object) (k j : string) : bool :=
  match lookup_prop so k with
  | Some (VObj c) => has_prop c j && negb (has_prop c "hasOwnProperty")
  | _ => false
  end.

Definition ready : status :=
  {| type := type_status; status_recording := true;
     status_data := None; status_error := None |}.

(** The callback [startRecording] gives to [getSpeechService], run when
    the auth provider has answered; [fresh] is the handle the library
    returns for the new streaming call. *)
Definition startRecording_service (st : state) (options : value)
    (svc : service_arg) (fresh : stream_id) : outcome :=
  let '(merged, thrown) := merge_streaming (streamingOptions st) options in
  let st1 := set_streamingOptions st merged in
  match thrown with
  | Some e => {| next := st1; calls := []; callbacks := []; thrown := Some e |}
  | None =>
      match svc with
      | NotAService _ =>
          {| next := st1; calls := []; callbacks := [];
             thrown := Some (TypeError "speechService.streamingRecognize is not a function") |}
      | SpeechService =>
          {| next := set_initialRequest (set_speechClient st1 (Some fresh)) true;
             calls := [StreamingRecognize fresh];
             callbacks := [ready];
             thrown := None |}
      end
  end.

(** ** The three listeners on the streaming call *)

(** One message of the streaming call: [response.error] and
    [response.results], either of which may be missing. *)
Record streaming_response : Type := {
  stream_error : option error;
  stream_results : option (list recognition_result)
}.

Definition on_error (err : error) : list status :=
  [{| type := type_error; status_recording := false;
      status_data := None; status_error := Some err |}].

Definition on_data (response : streaming_response) : list status :=
  match stream_error response with
  | Some err =>
      [{| type := type_error; status_recording := false;
          status_data := None; status_error := Some err |}]
  | None =>
      match stream_results response with
      | Some (r :: rs) =>
          [{| type := type_data; status_recording := true;
              status_data := Some (r :: rs); status_error := None |}]
      | _ => []
      end
  end.

Definition on_end : list status :=
  [{| type := type_status; status_recording := false;
      status_data := None; status_error := None |}].

(** ** recognise *)

Definition recognise (st : state) (audioData : audio) : outcome :=
  match speechClient st with
  | None =>
      {| next := st; calls := []; callbacks := [];
         thrown := Some (TypeError "Cannot read property 'write' of null") |}
  | Some id =>
      if initialRequest st then
        {| next := set_initialRequest st false;
           calls := [StreamWrite id (StreamingConfig (streamingOptions st));
                     StreamWrite id (AudioContent audioData)];
           callbacks := []; thrown := None |}
      else
        {| next := st;
           calls := [StreamWrite id (AudioContent audioData)];
           callbacks := []; thrown := None |}
  end.

(** [recognise] called on each buffer in turn, as long as none throws:
    the state left and the cloud calls made. *)
Fixpoint recognise_all (st : state) (buffers : list audio) : state * list cloud_call :=
  match buffers with
  | [] => (st, [])
  | b :: bs =>
      let o := recognise st b in
      match thrown o with
      | Some _ => (next o, calls o)
      | None =>
          let '(st', cs) := recognise_all (next o) bs in
          (st', calls o ++ cs)
      end
  end.

(** ** stopRecording *)

Definition stopRecording (st : state) : outcome :=
  {| next := set_speechClient st None;
     calls := match speechClient st with
              | Some id => [StreamEnd id]
              | None => []
              end;
     callbacks := []; thrown := None |}.

End Adapter.

(* ===================================================================== *)
(** * server/app.js                                                       *)
(* ===================================================================== *)

Module Relay.
Import JS Adapter.

(** An asynchronous call that has not called back yet. *)
Inductive pending : Type :=
| PendingStart (options : value)
| PendingFile (request : object * string)
| PendingRpc.

(** One connection and what it has done to the outside: the two
    variables of the [connection] closure, the asynchronous calls in
    flight, the handle the cloud library hands out next, the calls made
    on that library, the [socket.emit] calls (both oldest first), and the
    exception that escaped a handler, if one did. *)
Record world : Type := {
  cloudSpeechApi : Adapter.state;
  recording : bool;
  waiting : list pending;
  next_stream : stream_id;
  cloud : list cloud_call;
  sent : list Wire.emitted;
  crashed : option exn
}.

Definition connect : world :=
  {| cloudSpeechApi := Adapter.init;
     recording := false;
     waiting := [];
     next_stream := 0%nat;
     cloud := [];
     sent := [];
     crashed := None |}.

(** What arrives at the connection. *)
Inductive event : Type :=
| SocketRecording (parameters : value)
| SocketRecogniseFile (audioData : string) (parameters : value)
| SocketData (audioData : Wire.audio)
| SocketDisconnect
| AuthDone (i : nat) (a : auth_result)
| RpcDone (i : nat) (r : rpc_result)
| StreamData (id : stream_id) (response : streaming_response)
| StreamError (id : stream_id) (err : Wire.error)
| StreamEnd_ (id : stream_id).

(** The callback given to [startRecording]: the new value of
    [recording] and the event emitted. *)
Definition on_status (st : status) : bool * list Wire.emitted :=
  (status_recording st,
   match type st with
   | type_data =>
       [("recordingData",
         {| Wire.recording := Some (status_recording st);
            Wire.data := status_data st;
            Wire.error_ := status_error st |})]
   | type_status =>
       [("recordingStatusChange",
         {| Wire.recording := Some (status_recording st);
            Wire.data := None;
            Wire.error_ := status_error st |})]
   | type_error =>
       [("recordingError",
         {| Wire.recording := Some (status_recording st);
            Wire.data := None;
            Wire.error_ := status_error st |})]
   end).

(** The callback given to [recogniseFile]. *)
Definition on_file_response (response : file_response) : list Wire.emitted :=
  if success response then
    [("recordingData",
      {| Wire.recording := None;
         Wire.data := response_data response;
         Wire.error_ := response_error response |})]
  else
    [("recordingError",
      {| Wire.recording := None;
         Wire.data := None;
         Wire.error_ := response_error response |})].

Definition crash (w : world) (e : exn) : world :=
  {| cloudSpeechApi := cloudSpeechApi w; recording := recording w;
     waiting := waiting w; next_stream := next_stream w;
     cloud := cloud w; sent := sent w; crashed := Some e |}.

Definition emit (w : world) (es : list Wire.emitted) : world :=
  {| cloudSpeechApi := cloudSpeechApi w; recording := recording w;
     waiting := waiting w; next_stream := next_stream w;
     cloud := cloud w; sent := sent w ++ es; crashed := crashed w |}.

Definition set_recording (w : world) (b : bool) : world :=
  {| cloudSpeechApi := cloudSpeechApi w; recording := b;
     waiting := waiting w; next_stream := next_stream w;
     cloud := cloud w; sent := sent w; crashed := crashed w |}.

Definition set_waiting (w : world) (l : list pending) : world :=
  {| cloudSpeechApi := cloudSpeechApi w; recording := recording w;
     waiting := l; next_stream := next_stream w;
     cloud := cloud w; sent := sent w; crashed := crashed w |}.

(** Runs the [startRecording] callback on each status in turn. *)
Fixpoint deliver (w : world) (sts : list status) : world :=
  match sts with
  | [] => w
  | st :: rest =>
      let '(r, es) := on_status st in
      deliver (emit (set_recording w r) es) rest
  end.

Definition is_open (c : cloud_call) : bool :=
  match c with StreamingRecognize _ => true | _ => false end.

Definition is_end (id : stream_id) (c : cloud_call) : bool :=
  match c with StreamEnd id' => (id' =? id)%nat | _ => false end.

(** Takes over the effects of an adapter operation; every streaming
    call opened uses up one handle. *)
Definition apply_outcome (w : world) (o : outcome) : world :=
  let w1 :=
    {| cloudSpeechApi := next o; recording := recording w;
       waiting := waiting w;
       next_stream := (next_stream w + length (List.filter is_open (calls o)))%nat;
       cloud := cloud w ++ calls o; sent := sent w;
       crashed := thrown o |} in
  deliver w1 (callbacks o).

(** The control message the client sends from [start], for a microphone
    running at [sampleRate]. *)
Definition start_message (sampleRate : Z) : value :=
  VObj [("action", VStr "start");
        ("options", VObj [("config", VObj [("sampleRate", VNum sampleRate)])])].

(** The control message [{action: 'stop'}] as the client sends it. *)
Definition stop_message : value := VObj [("action", VStr "stop")].

(** [socket.on('recording', ...)] *)
Definition socket_recording (w : world) (parameters : value) : world :=
  match get parameters "action" with
  | Throw e => crash w e
  | Ok action =>
      match action with
      | VStr a =>
          if String.eqb a "start" then
            match get parameters "options" with
            | Throw e => crash w e
            | Ok options => set_waiting w (waiting w ++ [PendingStart options])
            end
          else if String.eqb a "stop" then
            let w1 := set_recording (apply_outcome w (stopRecording (cloudSpeechApi w))) false in
            emit w1 [("recordingStatus",
                      {| Wire.recording := Some (recording w1);
                         Wire.data := None;
                         Wire.error_ := None |})]
          else w
      | _ => w
      end
  end.

(** [socket.on('recogniseFile', ...)] *)
Definition socket_recogniseFile (w : world) (audioData : string) (parameters : value) : world :=
  let '(st, r) := recogniseFile (cloudSpeechApi w) audioData parameters in
  let w1 :=
    {| cloudSpeechApi := st; recording := recording w;
       waiting := waiting w; next_stream := next_stream w;
       cloud := cloud w; sent := sent w; crashed := crashed w |} in
  match r with
  | Throw e => crash w1 e
  | Ok request => set_waiting w1 (waiting w1 ++ [PendingFile request])
  end.

(** [socket.on('disconnect', ...)] *)
Definition socket_disconnect (w : world) : world :=
  set_recording (apply_outcome w (stopRecording (cloudSpeechApi w))) false.

(** [socket.on('data', ...)] *)
Definition socket_data (w : world) (audioData : Wire.audio) : world :=
  if recording w
  then apply_outcome w (recognise (cloudSpeechApi w) audioData)
  else w.

(** The auth provider answers the [i]-th call in flight. *)
Definition auth_done (w : world) (i : nat) (a : auth_result) : world :=
  match waiting w !! i with
  | Some (PendingStart options) =>
      let w1 := set_waiting w (delete i (waiting w)) in
      apply_outcome w1
        (startRecording_service (cloudSpeechApi w1) options
           (getSpeechService a) (next_stream w1))
  | Some (PendingFile request) =>
      let w1 := set_waiting w (delete i (waiting w)) in
      match recogniseFile_service (getSpeechService a) request with
      | Throw e => crash w1 e
      | Ok call =>
          {| cloudSpeechApi := cloudSpeechApi w1; recording := recording w1;
             waiting := waiting w1 ++ [PendingRpc]; next_stream := next_stream w1;
             cloud := cloud w1 ++ [call]; sent := sent w1; crashed := crashed w1 |}
      end
  | _ => w
  end.

(** The cloud answers the [i]-th call in flight, a one-shot request. *)
Definition rpc_done (w : world) (i : nat) (r : rpc_result) : world :=
  match waiting w !! i with
  | Some PendingRpc =>
      let w1 := set_waiting w (delete i (waiting w)) in
      match recogniseFile_response r with
      | Throw e => crash w1 e
      | Ok response => emit w1 (on_file_response response)
      end
  | _ => w
  end.

(** A listener of the streaming call [id] fires; only calls that were
    opened have listeners. *)
Definition stream_event (w : world) (id : stream_id) (sts : list status) : world :=
  if (id <? next_stream w)%nat then deliver w sts else w.

(** One event; after an uncaught exception the process is gone. *)
Definition step (w : world) (ev : event) : world :=
  match crashed w with
  | Some _ => w
  | None =>
      match ev with
      | SocketRecording parameters => socket_recording w parameters
      | SocketRecogniseFile audioData parameters => socket_recogniseFile w audioData parameters
      | SocketData audioData => socket_data w audioData
      | SocketDisconnect => socket_disconnect w
      | AuthDone i a => auth_done w i a
      | RpcDone i r => rpc_done w i r
      | StreamData id response => stream_event w id (on_data response)
      | StreamError id err => stream_event w id (on_error err)
      | StreamEnd_ id => stream_event w id on_end
      end
  end.

(** Events are handled one at a time, in arrival order. *)
Definition run (w : world) (evs : list event) : world := foldl step w evs.

(** What was written to the streaming call [id], oldest first. *)
Definition written (id : stream_id) (cs : list cloud_call) : list stream_message :=
  omap (fun c => match c with
                 | StreamWrite id' m => if (id' =? id)%nat then Some m else None
                 | _ => None
                 end) cs.

(** How often the streaming call [id] was ended. *)
Definition ended (id : stream_id) (cs : list cloud_call) : nat :=
  length (List.filter (is_end id) cs).

End Relay.

(* ===================================================================== *)
(** * What holds of every connection                                      *)
(* ===================================================================== *)

Module Invariant.
Import Adapter Relay.

(** The writes one streaming call may have received: none at all, or
    the configuration first and then audio chunks only, at least one. *)
Definition config_first (ws : list stream_message) : Prop :=
  ws = [] \/
  exists so b bs, ws = StreamingConfig so :: AudioContent b :: map AudioContent bs.

(** A [recordingData] event of the streaming path (the one that carries
    a [recording] field) has a non-empty result list. *)
Definition good_event (e : Wire.emitted) : Prop :=
  fst e = "recordingData" -> Wire.recording (snd e) <> None ->
  exists r rs, Wire.data (snd e) = Some (r :: rs).

(** A data-type status has a non-empty result list. *)
Definition good_status (st : status) : Prop :=
  type st = type_data -> exists r rs, status_data st = Some (r :: rs).

(** The invariant, over the parts of the world it speaks about: the
    current handle [c], the [initialRequest] flag [i], the next free
    handle [n], the cloud calls [cl] and the emitted events [s]. *)
Record ok_view (c : option stream_id) (i : bool) (n : stream_id)
    (cl : list cloud_call) (s : list Wire.emitted) : Prop := {
  ok_unopened : forall id, (n <= id)%nat ->
    written id cl = [] /\ ended id cl = 0%nat;
  ok_current : forall id, c = Some id ->
    (id < n)%nat /\ ended id cl = 0%nat /\
    (if i then written id cl = [] else written id cl <> []);
  ok_written : forall id, config_first (written id cl);
  ok_ended : forall id, (ended id cl <= 1)%nat;
  ok_sent : Forall good_event s
}.

Definition ok (w : world) : Prop :=
  ok_view (speechClient (cloudSpeechApi w)) (initialRequest (cloudSpeechApi w))
          (next_stream w) (cloud w) (sent w).

End Invariant.

(* ===================================================================== *)
(** * client/cloud-speech-api-client.js: capture                          *)
(* ===================================================================== *)

Module Capture.
Import JS Client.

(** The [params] that the success callback of [start] passes to
    [socket.emit('recording', params)], for an audio context running at
    [sampleRate] and the caller's [options]. *)
Definition start_params (sampleRate : Z) (options : value) : result value :=
  let config := [("sampleRate", VNum sampleRate)] in
  let params := fun c =>
    VObj [("action", VStr "start"); ("options", VObj [("config", VObj c)])] in
  if truthy options then
    match hasOwnProperty options "speechContext" with
    | Throw e => Throw e
    | Ok false => Ok (params config)
    | Ok true =>
        match get options "speechContext" with
        | Throw e => Throw e
        | Ok hints =>
            Ok (params (set_prop config "speechContext" (VObj [("phrases", hints)])))
        end
    end
  else Ok (params config).

(** [processor.onaudioprocess]: the buffers sent with
    [socket.emit('data', ...)].  [getChannelData(0)] always yields an
    array, so the [|| new Float32Array(bufferLength)] fallback never
    runs. *)
Definition onaudioprocess (c : Client.state) (channelData : list Num.number)
    : list Wire.audio :=
  if isRecording c then [convertFloat32ToInt16 channelData] else [].

(** The client handles the server's events one by one, in order. *)
Definition receive (c : Client.state) (es : list Wire.emitted) : Client.state :=
  foldl (fun c0 e => socket_on (fst e) (snd e) c0) c es.

End Capture.

(* ===================================================================== *)
(** * client/app.js: the page                                             *)
(* ===================================================================== *)

Module Page.
Import Wire.

(** The two spans of [#response]. *)
Record page : Type := {
  incomplete : string;
  final : string
}.

(** The loop over [alternatives]: [sentence += utterance.transcript]. *)
Definition add_alternatives (sentence : string) (alts : list string) : string :=
  foldl (fun s transcript => (s ++ transcript)%string) sentence alts.

(** The loop over [response.data]: the sentence and [completeUtterance]. *)
Definition onData_loop (data : list recognition_result) : string * bool :=
  foldl (fun acc utterances =>
           (add_alternatives (fst acc) (alternatives utterances),
            if isFinal utterances then true else snd acc))
        (EmptyString, false) data.

(** The strings of a list joined without a separator. *)
Definition joined (l : list string) : string :=
  fold_right String.append EmptyString l.

(** [onData]: a complete utterance replaces the final span and clears
    the incomplete one; otherwise only the incomplete span changes. *)
Definition onData (data : list recognition_result) (p : page) : page :=
  let '(sentence, completeUtterance) := onData_loop data in
  if completeUtterance
  then {| incomplete := EmptyString; final := (sentence ++ "<br/>")%string |}
  else {| incomplete := sentence; final := final p |}.

End Page.

(* ===================================================================== *)
(** * The order of calls on the cloud library                             *)
(* ===================================================================== *)

Module Protocol.
Import Adapter Relay.

(** The acknowledgement of a streaming call that is ready:
    [recordingStatusChange] with [recording: true]. *)
Definition is_ready (e : Wire.emitted) : bool :=
  String.eqb (fst e) "recordingStatusChange" &&
  match Wire.recording (snd e) with
  | Some true => true
  | _ => false
  end.

Definition acknowledged (s : list Wire.emitted) : nat :=
  length (List.filter is_ready s).

Definition opened (cl : list cloud_call) : nat :=
  length (List.filter is_open cl).

(** A call that concerns no streaming call. *)
Definition is_one_shot (c : cloud_call) : bool :=
  match c with NonStreamingRecognize _ _ => true | _ => false end.

(** How one event changes the streaming side of a connection: the
    handle, the [initialRequest] flag, the next free handle, the calls
    made and the events emitted. *)
Inductive transition (w w' : world) : Prop :=
| t_quiet (cs : list cloud_call) (es : list Wire.emitted) :
    speechClient (cloudSpeechApi w') = speechClient (cloudSpeechApi w) ->
    initialRequest (cloudSpeechApi w') = initialRequest (cloudSpeechApi w) ->
    next_stream w' = next_stream w ->
    cloud w' = cloud w ++ cs -> forallb is_one_shot cs = true ->
    sent w' = sent w ++ es -> List.filter is_ready es = [] ->
    transition w w'
| t_stop (es : list Wire.emitted) :
    speechClient (cloudSpeechApi w') = None ->
    initialRequest (cloudSpeechApi w') = initialRequest (cloudSpeechApi w) ->
    next_stream w' = next_stream w ->
    cloud w' = cloud w ++ match speechClient (cloudSpeechApi w) with
                          | Some id => [StreamEnd id]
                          | None => []
                          end ->
    sent w' = sent w ++ es -> List.filter is_ready es = [] ->
    transition w w'
| t_open (e : Wire.emitted) :
    speechClient (cloudSpeechApi w') = Some (next_stream w) ->
    initialRequest (cloudSpeechApi w') = true ->
    next_stream w' = S (next_stream w) ->
    cloud w' = cloud w ++ [StreamingRecognize (next_stream w)] ->
    sent w' = sent w ++ [e] -> is_ready e = true ->
    transition w w'
| t_write (id : stream_id) (ms : list stream_message) :
    speechClient (cloudSpeechApi w) = Some id ->
    speechClient (cloudSpeechApi w') = Some id ->
    initialRequest (cloudSpeechApi w') = false ->
    next_stream w' = next_stream w ->
    cloud w' = cloud w ++ map (StreamWrite id) ms ->
    sent w' = sent w ->
    transition w w'.

(** The client has been told "ready" as often as streaming calls were
    opened, and the handles in use are the first ones. *)
Definition synchronised (w : world) : Prop :=
  acknowledged (sent w) = next_stream w /\ opened (cloud w) = next_stream w.

(** The streaming options after a series of start requests. *)
Definition merge_all (so : JS.object) (requests : list JS.value) : JS.object :=
  foldl (fun s options => fst (merge_streaming s options)) so requests.

(** Once a streaming call has been ended, nothing more is done on it. *)
Fixpoint quiet_after_end (cl : list cloud_call) : Prop :=
  match cl with
  | [] => True
  | StreamEnd id :: rest =>
      written id rest = [] /\ ended id rest = 0%nat /\ quiet_after_end rest
  | _ :: rest => quiet_after_end rest
  end.

End Protocol.

(* ===================================================================== *)
(** * Options without the keys the merge passes over                      *)
(* ===================================================================== *)

Module Pruning.
Import JS Adapter.

(** [target.hasOwnProperty(j)] returns false: the inner loop passes over
    [j]. *)
Definition unrecognised_in (target : value) (j : string) : bool :=
  match hasOwnProperty target j with
  | Ok false => true
  | _ => false
  end.

(** A sub-object of the client's options without the inner keys that
    [target] does not have. *)
Definition prune_inner (target : value) (innerOptions : object) : object :=
  List.filter (fun kv => negb (unrecognised_in target (fst kv))) innerOptions.

(** The client's options with, in every entry that is an object, the
    inner keys taken out that the entry of the same name in
    [streamingOptions] does not have. *)
Definition prune (streamingOptions : object) (o : object) : object :=
  map (fun kv =>
         (fst kv,
          match snd kv with
          | VObj innerOptions =>
              VObj (prune_inner
                      (default VUndefined (lookup_prop streamingOptions (fst kv)))
                      innerOptions)
          | v => v
          end)) o.

End Pruning.

(* ===================================================================== *)
(** * Theorems                                                            *)
(* ===================================================================== *)

Section SampleConversion.
Import Num Client.

Lemma product_is_exact (m : Z) :
  float32_significand m -> float64_significand (m * 32767).
Proof. unfold float32_significand, float64_significand. lia. Qed.

Lemma convert_loop_reads_fst buffer l buf reads :
  fst (convert_loop_reads buffer l buf reads) = convert_loop buffer l buf.
Proof.
  revert buf reads. induction l as [|l IH]; intros buf reads; simpl; [done|].
  apply IH.
Qed.

Lemma convert_loop_reads_snd buffer l buf reads :
  snd (convert_loop_reads buffer l buf reads) = seq 0 l ++ reads.
Proof.
  revert buf reads. induction l as [|l IH]; intros buf reads; [done|].
  cbn [convert_loop_reads]. rewrite IH, seq_S, <- app_assoc. done.
Qed.

Lemma convert_loop_spec buffer l buf :
  (l <= length buffer)%nat -> length buf = length buffer ->
  convert_loop buffer l buf = map convert_sample (take l buffer) ++ drop l buf.
Proof.
  revert buf. induction l as [|l IH]; intros buf Hl Hlen.
  - by rewrite take_0, drop_0.
  - cbn [convert_loop]. rewrite IH; [|lia|by rewrite length_insert].
    destruct (lookup_lt_is_Some_2 buffer l) as [x Hx]; [lia|].
    unfold read_sample. rewrite Hx. cbn [default].
    rewrite (take_S_r _ _ _ Hx), map_app, <- app_assoc. f_equal.
    cbn [map app].
    rewrite drop_insert_ge by lia. rewrite Nat.sub_diag.
    destruct (lookup_lt_is_Some_2 buf l) as [y Hy]; [lia|].
    rewrite (drop_S _ _ _ Hy). done.
Qed.

Lemma convertFloat32ToInt16_map buffer :
  convertFloat32ToInt16 buffer = map convert_sample buffer.
Proof.
  unfold convertFloat32ToInt16.
  rewrite convert_loop_spec by (try rewrite length_replicate; lia).
  rewrite firstn_all, drop_ge by (rewrite length_replicate; lia).
  by rewrite app_nil_r.
Qed.

Lemma Math_min_1_finite (x : Q) :
  Math_min (Finite 1) (Finite x) = Finite (Qmin 1 x).
Proof.
  cbn [Math_min]. unfold Qmin, GenericMinMax.gmin.
  destruct (Qle_bool 1 x) eqn:Hle; destruct (1 ?= x)%Q eqn:Hc;
    try reflexivity; exfalso.
  - apply Qle_bool_iff in Hle. apply Qgt_alt in Hc.
    exact (Qlt_not_le _ _ Hc Hle).
  - apply Qeq_alt in Hc. assert (Qle_bool 1 x = true); [|congruence].
    apply Qle_bool_iff. rewrite <- Hc. apply Qle_refl.
  - apply Qlt_alt in Hc. assert (Qle_bool 1 x = true); [|congruence].
    apply Qle_bool_iff. by apply Qlt_le_weak.
Qed.

Lemma ToInt16_in_range (q : Q) :
  - 2 ^ 15 <= truncate q < 2 ^ 15 -> ToInt16 (Finite q) = truncate q.
Proof.
  intros Hr. cbn [ToInt16]. cbv zeta.
  destruct (Z_lt_le_dec (truncate q) 0) as [Hneg|Hpos].
  - replace (truncate q mod 2 ^ 16) with (truncate q + 2 ^ 16).
    + destruct (Z.leb_spec (2 ^ 15) (truncate q + 2 ^ 16)); lia.
    + apply Z.mod_unique with (q := -1); lia.
  - rewrite Z.mod_small by lia.
    destruct (Z.leb_spec (2 ^ 15) (truncate q)); lia.
Qed.

Lemma truncate_scaled_bounds (x : Q) :
  (- (1) <= x <= 1)%Q -> -32767 <= truncate (x * (32767 # 1)) <= 32767.
Proof.
  destruct x as [n d]. unfold Qle, truncate. cbn [Qnum Qden Qmult Qopp].
  rewrite Pos.mul_1_r. intros [Hlo Hhi].
  assert (Hd : 0 < Z.pos d) by lia. split.
  - apply Z.le_trans with (Z.quot (-32767 * Z.pos d) (Z.pos d)).
    + rewrite Z.quot_mul; lia.
    + apply Z.quot_le_mono; lia.
  - apply Z.le_trans with (Z.quot (32767 * Z.pos d) (Z.pos d)).
    + apply Z.quot_le_mono; lia.
    + rewrite Z.quot_mul; lia.
Qed.

Lemma Qmin_1_bounds (x : Q) : (- (1) <= x)%Q -> (- (1) <= Qmin 1 x <= 1)%Q.
Proof.
  intros Hx. split.
  - apply Q.min_glb; [done|exact Hx].
  - apply Q.le_min_l.
Qed.

Lemma convert_sample_finite (x : Q) :
  (- (1) <= x)%Q ->
  convert_sample (Finite x) = truncate (Qmin 1 x * (32767 # 1)).
Proof.
  intros Hx. unfold convert_sample. rewrite Math_min_1_finite.
  cbn [mul_const]. apply ToInt16_in_range.
  pose proof (truncate_scaled_bounds _ (Qmin_1_bounds x Hx)). lia.
Qed.

Lemma convert_sample_above_one (x : Q) :
  (1 < x)%Q -> convert_sample (Finite x) = 32767.
Proof.
  intros Hx. unfold convert_sample. cbn [Math_min].
  destruct (Qle_bool 1 x) eqn:Hle; [done|].
  assert (Qle_bool 1 x = true); [|congruence].
  apply Qle_bool_iff. by apply Qlt_le_weak.
Qed.

Lemma convert_sample_infinity : convert_sample (Infinity false) = 32767.
Proof. reflexivity. Qed.

(** The conversion does not round: a quarter of full scale is 8191.75,
    which [Math.round] takes to 8192 and the conversion to 8191. *)
Lemma convert_sample_not_rounded :
  (- (1) <= 1 # 4 <= 1)%Q /\
  convert_sample (Finite (1 # 4)) = 8191 /\
  Math_round (Qmin 1 (1 # 4) * (32767 # 1)) = 8192 /\
  ~ (forall x : Q, (- (1) <= x <= 1)%Q ->
       convert_sample (Finite x) = Math_round (Qmin 1 x * (32767 # 1))).
Proof.
  assert (Hx : (- (1) <= 1 # 4 <= 1)%Q) by (split; unfold Qle; cbn; lia).
  split; [exact Hx|]. split; [reflexivity|]. split; [reflexivity|].
  intros H. specialize (H (1 # 4) Hx). vm_compute in H. discriminate H.
Qed.

(** C2.  For every input buffer the conversion visits each index exactly
    once and returns a buffer of the same length; a finite sample [x]
    of at least -1 at index [l] becomes [min(1, x) * 32767] with the
    fraction cut off (truncated toward zero, not rounded), which is a
    16-bit signed value; and a sample above 1 becomes 32767. *)
Theorem convertFloat32ToInt16_truncates (buffer : list number) (l : nat) (x : Q) :
  buffer !! l = Some (Finite x) -> (- (1) <= x)%Q ->
  length (convertFloat32ToInt16 buffer) = length buffer /\
  convert_loop_reads buffer (length buffer) (replicate (length buffer) 0) [] =
    (convertFloat32ToInt16 buffer, seq 0 (length buffer)) /\
  convertFloat32ToInt16 buffer !! l = Some (truncate (Qmin 1 x * (32767 # 1))) /\
  - 2 ^ 15 <= truncate (Qmin 1 x * (32767 # 1)) < 2 ^ 15 /\
  ((1 < x)%Q -> convertFloat32ToInt16 buffer !! l = Some 32767).
Proof.
  intros Hl Hx. rewrite convertFloat32ToInt16_map.
  split; [by rewrite length_map|].
  split.
  { rewrite <- convertFloat32ToInt16_map. unfold convertFloat32ToInt16.
    rewrite (surjective_pairing (convert_loop_reads _ _ _ _)).
    by rewrite convert_loop_reads_fst, convert_loop_reads_snd, app_nil_r. }
  assert (Hget : map convert_sample buffer !! l = Some (convert_sample (Finite x))).
  { by rewrite list_lookup_fmap, Hl. }
  split; [by rewrite Hget, convert_sample_finite|].
  split.
  - pose proof (truncate_scaled_bounds _ (Qmin_1_bounds x Hx)). lia.
  - intros H1. by rewrite Hget, convert_sample_above_one.
Qed.

Lemma convertFloat32ToInt16_truncates_witness :
  [Finite (1 # 4); Finite (3 # 2)] !! 0%nat = Some (Finite (1 # 4)) /\
  (- (1) <= 1 # 4)%Q /\
  convertFloat32ToInt16 [Finite (1 # 4); Finite (3 # 2)] !! 0%nat = Some 8191.
Proof.
  split; [reflexivity|]. split; [unfold Qle; cbn; lia|].
  apply (convertFloat32ToInt16_truncates [Finite (1 # 4); Finite (3 # 2)] 0 (1 # 4));
    [reflexivity|unfold Qle; cbn; lia].
Defined.

End SampleConversion.

(* ===================================================================== *)
(** ** Audio is forwarded only while recording                            *)
(* ===================================================================== *)

Section Forwarding.
Import JS Adapter Relay.

Lemma socket_data_not_recording (w : world) (audioData : Wire.audio) :
  recording w = false -> step w (SocketData audioData) = w.
Proof.
  intros Hrec. unfold step, socket_data. rewrite Hrec. by destruct (crashed w).
Qed.

Lemma deliver_cloudSpeechApi w sts :
  cloudSpeechApi (deliver w sts) = cloudSpeechApi w.
Proof. revert w. induction sts as [|st sts IH]; intros w; [done|]. cbn. by rewrite IH. Qed.

Lemma deliver_cloud w sts : cloud (deliver w sts) = cloud w.
Proof. revert w. induction sts as [|st sts IH]; intros w; [done|]. cbn. by rewrite IH. Qed.

Lemma deliver_next_stream w sts : next_stream (deliver w sts) = next_stream w.
Proof. revert w. induction sts as [|st sts IH]; intros w; [done|]. cbn. by rewrite IH. Qed.

Lemma deliver_crashed w sts : crashed (deliver w sts) = crashed w.
Proof. revert w. induction sts as [|st sts IH]; intros w; [done|]. cbn. by rewrite IH. Qed.

Lemma deliver_sent w sts :
  sent (deliver w sts) = sent w ++ concat (map (fun st => snd (on_status st)) sts).
Proof.
  revert w. induction sts as [|st sts IH]; intros w; cbn.
  - by rewrite app_nil_r.
  - rewrite IH. cbn. by rewrite <- app_assoc.
Qed.

Lemma stop_effect (w : world) :
  crashed w = None ->
  let w' := step w (SocketRecording stop_message) in
  recording w' = false /\
  speechClient (cloudSpeechApi w') = None /\
  cloud w' = cloud w ++ match speechClient (cloudSpeechApi w) with
                        | Some id => [StreamEnd id]
                        | None => []
                        end /\
  sent w' = sent w ++ [("recordingStatus",
                        {| Wire.recording := Some false;
                           Wire.data := None;
                           Wire.error_ := None |})] /\
  crashed w' = None.
Proof.
  intros Hcr. unfold step. rewrite Hcr. cbn. done.
Qed.

Lemma disconnect_effect (w : world) :
  crashed w = None ->
  let w' := step w SocketDisconnect in
  recording w' = false /\
  speechClient (cloudSpeechApi w') = None /\
  cloud w' = cloud w ++ match speechClient (cloudSpeechApi w) with
                        | Some id => [StreamEnd id]
                        | None => []
                        end /\
  sent w' = sent w /\
  crashed w' = None.
Proof.
  intros Hcr. unfold step. rewrite Hcr. cbn. done.
Qed.

(** C1.  While the connection's [recording] flag is false, audio buffers
    arriving on the socket change nothing at all: no call is made on the
    adapter (the log of cloud calls, hence the number of stream writes,
    stays as it was), nothing is emitted and nothing is thrown.  The flag
    is false on a fresh connection, after a stop message and after a
    disconnect. *)
Theorem audio_dropped_while_not_recording (w : world) (buffers : list Wire.audio) :
  recording w = false ->
  run w (map SocketData buffers) = w /\
  cloud (run w (map SocketData buffers)) = cloud w /\
  recording connect = false /\
  written 0%nat (cloud (run connect (map SocketData buffers))) = [] /\
  (crashed w = None ->
   recording (step w (SocketRecording stop_message)) = false /\
   recording (step w SocketDisconnect) = false).
Proof.
  intros Hrec.
  assert (Hrun : forall w0, recording w0 = false ->
                            run w0 (map SocketData buffers) = w0).
  { induction buffers as [|b bs IH]; intros w0 H0; [done|].
    cbn. rewrite socket_data_not_recording by done. by apply IH. }
  rewrite !Hrun by done. repeat split; try done.
  - by apply stop_effect.
  - by apply disconnect_effect.
Qed.

Lemma audio_dropped_while_not_recording_witness :
  recording connect = false /\
  run connect (map SocketData [[1; 2]; [3]]) = connect.
Proof.
  split; [reflexivity|].
  apply (audio_dropped_while_not_recording connect [[1; 2]; [3]]).
  reflexivity.
Defined.

End Forwarding.

(* ===================================================================== *)
(** ** Stop and its notification                                          *)
(* ===================================================================== *)

Section Stop.
Import JS Adapter Relay.

(** The client has no listener for the event the stop branch emits. *)
Lemma client_ignores_recordingStatus (p : Wire.payload) (c : Client.state) :
  Client.socket_on "recordingStatus" p c = c.
Proof. reflexivity. Qed.

(** C6.  On a stop message the relay ends the streaming call if there is
    one, clears the flag, and emits exactly one event.  That event is
    named [recordingStatus], not [recordingStatusChange]; its payload is
    [{recording: false, error: null}]; and the client, which listens for
    [recordingStatusChange], does not react to it. *)
Theorem stop_emits_recordingStatus (w : world) (c : Client.state) :
  crashed w = None ->
  let w' := step w (SocketRecording stop_message) in
  cloud w' = cloud w ++ match speechClient (cloudSpeechApi w) with
                        | Some id => [StreamEnd id]
                        | None => []
                        end /\
  recording w' = false /\
  (exists name p,
     sent w' = sent w ++ [(name, p)] /\
     name = "recordingStatus" /\
     name <> "recordingStatusChange" /\
     p = {| Wire.recording := Some false; Wire.data := None; Wire.error_ := None |} /\
     Client.socket_on name p c = c).
Proof.
  intros Hcr w'. destruct (stop_effect w Hcr) as (Hrec & _ & Hcloud & Hsent & _).
  split; [exact Hcloud|]. split; [exact Hrec|].
  eexists _, _. split; [exact Hsent|]. repeat split. discriminate.
Qed.

Lemma stop_emits_recordingStatus_witness :
  crashed connect = None /\
  sent (step connect (SocketRecording stop_message)) =
    [("recordingStatus",
      {| Wire.recording := Some false; Wire.data := None; Wire.error_ := None |})].
Proof.
  split; [reflexivity|].
  destruct (stop_emits_recordingStatus connect
              {| Client.isRecording := true; Client.audioContext := Some true;
                 Client.called := [] |} eq_refl)
    as (_ & _ & name & p & Hsent & -> & _ & -> & _).
  exact Hsent.
Defined.

End Stop.

(* ===================================================================== *)
(** ** One-shot recognition and its callback                              *)
(* ===================================================================== *)

Section RecogniseFile.
Import JS Adapter Relay.

(** When the auth provider answers and the cloud returns an error or at
    least one response, the caller's callback runs exactly once, with
    the failure or the success shape. *)
Lemma recogniseFile_calls_back (st : state) (audioData : string) (parameters : value)
    (r : rpc_result) (request : object * string) :
  snd (recogniseFile st audioData parameters) = Ok request ->
  match r with
  | RpcFailed err =>
      snd (fst (recogniseFile_run st audioData parameters AuthClient r)) =
        [{| success := false; response_data := None; response_error := Some err |}]
  | RpcResponse [] =>
      snd (fst (recogniseFile_run st audioData parameters AuthClient r)) = []
  | RpcResponse (r0 :: _) =>
      snd (fst (recogniseFile_run st audioData parameters AuthClient r)) =
        [{| success := true; response_data := Some (results r0); response_error := None |}]
  end.
Proof.
  unfold recogniseFile_run.
  destruct (recogniseFile st audioData parameters) as [st' res]. cbn [snd].
  intros ->. cbn. destruct r as [err|[|r0 rs]]; reflexivity.
Qed.

(** C5.  When the credential exchange fails, [recogniseFile] never
    invokes the caller's callback: the error object is handed on in the
    place of the service, the method call on it throws, no cloud call is
    made and the exception escapes. *)
Theorem recogniseFile_auth_failure_not_reported
    (st : state) (audioData : string) (parameters : value)
    (err : Wire.error) (r : rpc_result) :
  let '(_, made, invoked, escaped) :=
    recogniseFile_run st audioData parameters (AuthFailed err) r in
  made = [] /\ invoked = [] /\ escaped <> None.
Proof.
  unfold recogniseFile_run.
  destruct (recogniseFile st audioData parameters) as [st' [request|e]]; cbn;
    repeat split; discriminate.
Qed.

(** The same at the failing input, evaluated. *)
Example recogniseFile_auth_failure_example :
  recogniseFile_run Adapter.init "AAAA" (VObj []) (AuthFailed "invalid_grant")
    (RpcResponse [{| results := [] |}]) =
  (Adapter.init, [], [],
   Some (TypeError "speechService.nonStreamingRecognize is not a function")).
Proof. reflexivity. Qed.

(** On the connection the same failure ends the process with nothing
    emitted to the client. *)
Example relay_auth_failure_example :
  let w := run connect [SocketRecogniseFile "AAAA" (VObj []);
                        AuthDone 0 (AuthFailed "invalid_grant")] in
  sent w = [] /\
  crashed w = Some (TypeError "speechService.nonStreamingRecognize is not a function").
Proof. split; reflexivity. Qed.

End RecogniseFile.

(* ===================================================================== *)
(** ** The invariant of a connection                                      *)
(* ===================================================================== *)

Section ConnectionInvariant.
Import JS Adapter Relay Invariant.

Lemma written_app id l1 l2 : written id (l1 ++ l2) = written id l1 ++ written id l2.
Proof. apply omap_app. Qed.

Lemma ended_app id l1 l2 : ended id (l1 ++ l2) = (ended id l1 + ended id l2)%nat.
Proof. unfold ended. by rewrite List.filter_app, length_app. Qed.

Lemma ok_view_emit c i n cl s es :
  Forall good_event es -> ok_view c i n cl s -> ok_view c i n cl (s ++ es).
Proof.
  intros Hes [H1 H2 H3 H4 H5]. split; try done. by apply Forall_app.
Qed.

Lemma ok_view_call c i n cl s initialRequest content :
  ok_view c i n cl s ->
  ok_view c i n (cl ++ [NonStreamingRecognize initialRequest content]) s.
Proof.
  intros [H1 H2 H3 H4 H5].
  split; try done; intros id; rewrite ?written_app, ?ended_app; cbn;
    rewrite ?app_nil_r, ?Nat.add_0_r; auto.
Qed.

Lemma ok_view_stop c i n cl s :
  ok_view c i n cl s ->
  ok_view None i n (cl ++ match c with Some id => [StreamEnd id] | None => [] end) s.
Proof.
  intros [H1 H2 H3 H4 H5]. destruct c as [cur|].
  - destruct (H2 cur eq_refl) as (Hlt & Hend & _).
    split; try done; intros id; rewrite ?written_app, ?ended_app; cbn;
      rewrite ?app_nil_r.
    + intros Hge. destruct (H1 id Hge) as [Hw He]. split; [done|].
      rewrite He. destruct (Nat.eqb_spec cur id); [lia|done].
    + apply H3.
    + destruct (Nat.eqb_spec cur id) as [->|_]; cbn.
      * rewrite Hend. lia.
      * pose proof (H4 id). lia.
  - rewrite app_nil_r. split; done.
Qed.

Lemma ok_view_open c i n cl s :
  ok_view c i n cl s ->
  ok_view (Some n) true (S n) (cl ++ [StreamingRecognize n]) s.
Proof.
  intros [H1 H2 H3 H4 H5].
  split; try done; intros id; rewrite ?written_app, ?ended_app; cbn;
    rewrite ?app_nil_r, ?Nat.add_0_r.
  - intros Hge. apply H1. lia.
  - intros [= <-]. destruct (H1 n (Nat.le_refl n)) as [Hw He].
    rewrite ?written_app; cbn; rewrite ?app_nil_r. split; [lia|]. by split.
  - apply H3.
  - apply H4.
Qed.

Lemma ok_view_write_first cur n cl s so b :
  ok_view (Some cur) true n cl s ->
  ok_view (Some cur) false n
    (cl ++ [StreamWrite cur (StreamingConfig so); StreamWrite cur (AudioContent b)]) s.
Proof.
  intros [H1 H2 H3 H4 H5]. destruct (H2 cur eq_refl) as (Hlt & Hend & Hw).
  split; try done; intros id; rewrite ?written_app, ?ended_app; cbn;
    rewrite ?Nat.add_0_r.
  - intros Hge. destruct (H1 id Hge) as [Hw' He']. split; [|done].
    rewrite Hw'. destruct (Nat.eqb_spec cur id); [lia|done].
  - intros [= <-]. rewrite ?written_app; cbn; rewrite ?Nat.eqb_refl.
    split; [done|]. split; [done|]. by destruct (written cur cl).
  - destruct (Nat.eqb_spec cur id) as [<-|_].
    + rewrite Hw. right. by exists so, b, [].
    + rewrite app_nil_r. apply H3.
  - apply H4.
Qed.

Lemma ok_view_write_next cur n cl s b :
  ok_view (Some cur) false n cl s ->
  ok_view (Some cur) false n (cl ++ [StreamWrite cur (AudioContent b)]) s.
Proof.
  intros [H1 H2 H3 H4 H5]. destruct (H2 cur eq_refl) as (Hlt & Hend & Hw).
  split; try done; intros id; rewrite ?written_app, ?ended_app; cbn;
    rewrite ?Nat.add_0_r.
  - intros Hge. destruct (H1 id Hge) as [Hw' He']. split; [|done].
    rewrite Hw'. destruct (Nat.eqb_spec cur id); [lia|done].
  - intros [= <-]. rewrite ?written_app; cbn; rewrite ?Nat.eqb_refl.
    split; [done|]. split; [done|]. by destruct (written cur cl).
  - destruct (Nat.eqb_spec cur id) as [<-|_].
    + destruct (H3 cur) as [Hnil|(so & b0 & bs & Heq)]; [done|].
      right. exists so, b0, (bs ++ [b]). rewrite Heq, map_app. done.
    + rewrite app_nil_r. apply H3.
  - apply H4.
Qed.

Lemma good_on_status (st : status) :
  good_status st -> Forall good_event (snd (on_status st)).
Proof.
  intros Hst. unfold on_status. cbn [snd].
  destruct (type st) eqn:Ht; repeat constructor; unfold good_event; cbn;
    try discriminate.
  intros _ _. by apply Hst.
Qed.

Lemma good_on_data response : Forall good_status (on_data response).
Proof.
  unfold on_data. destruct (stream_error response).
  - repeat constructor. unfold good_status. cbn. discriminate.
  - destruct (stream_results response) as [[|r rs]|]; repeat constructor.
    unfold good_status. cbn. eauto.
Qed.

Lemma good_on_error err : Forall good_status (on_error err).
Proof. repeat constructor. unfold good_status. cbn. discriminate. Qed.

Lemma good_on_end : Forall good_status on_end.
Proof. repeat constructor. unfold good_status. cbn. discriminate. Qed.

Lemma ok_deliver (w : world) (sts : list status) :
  Forall good_status sts -> ok w -> ok (deliver w sts).
Proof.
  intros Hsts Hok. unfold ok.
  rewrite deliver_cloudSpeechApi, deliver_next_stream, deliver_cloud, deliver_sent.
  apply ok_view_emit; [|exact Hok].
  induction Hsts as [|st sts Hst _ IH]; cbn; [constructor|].
  apply Forall_app. split; [by apply good_on_status|exact IH].
Qed.

Lemma ok_connect : ok connect.
Proof.
  split; cbn; try done.
  - by left.
  - lia.
Qed.

Lemma ok_recognise (w : world) (audioData : Wire.audio) :
  ok w -> ok (apply_outcome w (recognise (cloudSpeechApi w) audioData)).
Proof.
  unfold ok, recognise. intros Hok.
  destruct (speechClient (cloudSpeechApi w)) as [cur|] eqn:Hc.
  - destruct (initialRequest (cloudSpeechApi w)) eqn:Hi; cbn;
      rewrite ?Hc, ?Hi, ?Nat.add_0_r.
    + by apply ok_view_write_first.
    + by apply ok_view_write_next.
  - cbn. rewrite Hc, Nat.add_0_r, app_nil_r. exact Hok.
Qed.

Lemma ok_stopRecording (w : world) :
  ok w -> ok (apply_outcome w (stopRecording (cloudSpeechApi w))).
Proof.
  unfold ok. intros Hok. apply ok_view_stop in Hok. cbn.
  destruct (speechClient (cloudSpeechApi w)); cbn; by rewrite Nat.add_0_r.
Qed.

Lemma ok_startRecording_service (w : world) options svc :
  ok w ->
  ok (apply_outcome w
        (startRecording_service (cloudSpeechApi w) options svc (next_stream w))).
Proof.
  unfold ok, startRecording_service. intros Hok.
  destruct (merge_streaming _ options) as [merged [e|]].
  - cbn. by rewrite Nat.add_0_r, app_nil_r.
  - destruct svc as [err|]; cbn.
    + by rewrite Nat.add_0_r, app_nil_r.
    + rewrite Nat.add_1_r. apply ok_view_emit.
      * repeat constructor. unfold good_event. cbn. discriminate.
      * by apply ok_view_open in Hok.
Qed.

Lemma ok_step (w : world) (ev : event) : ok w -> ok (step w ev).
Proof.
  intros Hok. unfold step. destruct (crashed w); [done|].
  destruct ev as [parameters|audioData parameters|audioData| |i a|i r
                 |id response|id err|id].
  - unfold socket_recording.
    destruct (get parameters "action") as [[| |b|z|a|o]|e]; try done.
    destruct (String.eqb a "start").
    { by destruct (get parameters "options"). }
    destruct (String.eqb a "stop"); [|done].
    apply ok_stopRecording in Hok. unfold ok in *. cbn in *.
    apply ok_view_emit; [|exact Hok].
    repeat constructor. unfold good_event. cbn. discriminate.
  - unfold socket_recogniseFile, recogniseFile.
    destruct (if truthy parameters then _ else _) as [merged [e|]]; exact Hok.
  - unfold socket_data. destruct (recording w); [|done]. by apply ok_recognise.
  - unfold socket_disconnect. by apply ok_stopRecording in Hok.
  - unfold auth_done. destruct (waiting w !! i) as [[options|request|]|]; try done.
    + apply (ok_startRecording_service (set_waiting w (delete i (waiting w)))).
      exact Hok.
    + destruct a as [err|]; cbn; [exact Hok|].
      unfold ok. cbn. apply ok_view_call. exact Hok.
  - unfold rpc_done. destruct (waiting w !! i) as [[options|request|]|]; try done.
    destruct (recogniseFile_response r) as [response|e]; [|exact Hok].
    unfold ok. cbn. apply ok_view_emit; [|exact Hok].
    unfold on_file_response.
    destruct (success response); repeat constructor; unfold good_event; cbn; done.
  - unfold stream_event. destruct (id <? next_stream w)%nat; [|done].
    apply ok_deliver; [apply good_on_data|done].
  - unfold stream_event. destruct (id <? next_stream w)%nat; [|done].
    apply ok_deliver; [apply good_on_error|done].
  - unfold stream_event. destruct (id <? next_stream w)%nat; [|done].
    apply ok_deliver; [apply good_on_end|done].
Qed.

Lemma ok_run (w : world) (evs : list event) : ok w -> ok (run w evs).
Proof.
  revert w. induction evs as [|ev evs IH]; intros w Hok; [done|].
  cbn. apply IH. by apply ok_step.
Qed.

End ConnectionInvariant.

(* ===================================================================== *)
(** ** Streaming sessions                                                 *)
(* ===================================================================== *)

Section Sessions.
Import JS Adapter Relay Invariant.

Lemma recognise_next (st : state) (id : stream_id) (b : Wire.audio) :
  speechClient st = Some id -> initialRequest st = false ->
  recognise st b =
    {| next := st; calls := [StreamWrite id (AudioContent b)];
       callbacks := []; thrown := None |}.
Proof. intros Hc Hi. unfold recognise. by rewrite Hc, Hi. Qed.

Lemma recognise_first (st : state) (id : stream_id) (b : Wire.audio) :
  speechClient st = Some id -> initialRequest st = true ->
  recognise st b =
    {| next := set_initialRequest st false;
       calls := [StreamWrite id (StreamingConfig (streamingOptions st));
                 StreamWrite id (AudioContent b)];
       callbacks := []; thrown := None |}.
Proof. intros Hc Hi. unfold recognise. by rewrite Hc, Hi. Qed.

Lemma recognise_all_next (st : state) (id : stream_id) (buffers : list Wire.audio) :
  speechClient st = Some id -> initialRequest st = false ->
  snd (recognise_all st buffers) =
    map (fun b => StreamWrite id (AudioContent b)) buffers.
Proof.
  revert st. induction buffers as [|b bs IH]; intros st Hc Hi; [done|].
  cbn [recognise_all]. rewrite (recognise_next st id b Hc Hi). cbn.
  specialize (IH st Hc Hi). destruct (recognise_all st bs) as [st' cs].
  cbn in *. by rewrite IH.
Qed.

Lemma recognise_all_first (st : state) (id : stream_id) (b : Wire.audio)
    (bs : list Wire.audio) :
  speechClient st = Some id -> initialRequest st = true ->
  snd (recognise_all st (b :: bs)) =
    StreamWrite id (StreamingConfig (streamingOptions st)) ::
    StreamWrite id (AudioContent b) ::
    map (fun x => StreamWrite id (AudioContent x)) bs.
Proof.
  intros Hc Hi. cbn [recognise_all]. rewrite (recognise_first st id b Hc Hi). cbn.
  pose proof (recognise_all_next (set_initialRequest st false) id bs Hc eq_refl) as Hn.
  destruct (recognise_all (set_initialRequest st false) bs) as [st' cs].
  cbn in *. by rewrite Hn.
Qed.

(** C4.  Once [startRecording] has opened a streaming call, the writes
    made for the audio buffers [b :: bs] are: the configuration message,
    carrying the merged options, then one audio chunk per buffer.  And on
    every connection, whatever arrives in whatever order, each streaming
    call has received either nothing, or the configuration exactly once
    and first, followed by audio chunks only. *)
Theorem streaming_config_written_once_first
    (st : state) (options : value) (fresh : stream_id)
    (b : Wire.audio) (bs : list Wire.audio) :
  let o := startRecording_service st options SpeechService fresh in
  thrown o = None ->
  calls o = [StreamingRecognize fresh] /\
  snd (recognise_all (next o) (b :: bs)) =
    StreamWrite fresh (StreamingConfig (fst (merge_streaming (streamingOptions st) options))) ::
    StreamWrite fresh (AudioContent b) ::
    map (fun x => StreamWrite fresh (AudioContent x)) bs /\
  (forall evs id, config_first (written id (cloud (run connect evs)))).
Proof.
  intros o Hthrown. subst o. unfold startRecording_service in *.
  destruct (merge_streaming (streamingOptions st) options) as [merged [e|]];
    [discriminate|].
  split; [reflexivity|]. split.
  - cbn [next fst]. by rewrite recognise_all_first with (id := fresh).
  - intros evs id. apply (ok_written _ _ _ _ _ (ok_run connect evs ok_connect)).
Qed.

Lemma streaming_config_written_once_first_witness :
  thrown (startRecording_service Adapter.init
            (VObj [("config", VObj [("sampleRate", VNum 44100)])])
            SpeechService 0%nat) = None /\
  written 0%nat
    (cloud (run connect [SocketRecording (start_message 44100);
                         AuthDone 0 AuthClient;
                         SocketData [1; 2]; SocketData [3]])) =
    [StreamingConfig
       [("config", VObj [("encoding", VStr "LINEAR16");
                         ("sampleRate", VNum 44100);
                         ("languageCode", VStr "en-US");
                         ("profanityFilter", VBool true);
                         ("speechContext", VNull)]);
        ("interimResults", VBool true);
        ("singleUtterance", VBool false)];
     AudioContent [1; 2]; AudioContent [3]] /\
  config_first
    (written 0%nat
       (cloud (run connect [SocketRecording (start_message 44100);
                            AuthDone 0 AuthClient;
                            SocketData [1; 2]; SocketData [3]]))).
Proof.
  split; [reflexivity|]. split; [reflexivity|].
  apply (streaming_config_written_once_first Adapter.init
           (VObj [("config", VObj [("sampleRate", VNum 44100)])])
           0%nat [1; 2] [[3]] eq_refl).
Defined.

(** C7.  On every connection, however it got there: if the flag is true
    and a streaming call is open when the client disconnects, the
    disconnect ends that call, which had not been ended before, so it
    has been ended exactly once; the flag becomes false and the handle
    is cleared; and a further attempt to stop makes no call at all. *)
Theorem disconnect_closes_session_once (evs : list event) (id : stream_id) :
  crashed (run connect evs) = None ->
  recording (run connect evs) = true ->
  speechClient (cloudSpeechApi (run connect evs)) = Some id ->
  let w' := step (run connect evs) SocketDisconnect in
  cloud w' = cloud (run connect evs) ++ [StreamEnd id] /\
  ended id (cloud w') = 1%nat /\
  recording w' = false /\
  speechClient (cloudSpeechApi w') = None /\
  calls (stopRecording (cloudSpeechApi w')) = [] /\
  cloud (step w' SocketDisconnect) = cloud w'.
Proof.
  intros Hcr Hrec Hc w'.
  destruct (disconnect_effect _ Hcr) as (Hrec' & Hc' & Hcloud & _ & Hcr').
  fold w' in Hrec', Hc', Hcloud, Hcr'. rewrite Hc in Hcloud.
  split; [exact Hcloud|]. split.
  - rewrite Hcloud, ended_app.
    destruct (ok_current _ _ _ _ _ (ok_run connect evs ok_connect) id Hc)
      as (_ & Hend & _).
    rewrite Hend. cbn. by rewrite Nat.eqb_refl.
  - split; [exact Hrec'|]. split; [exact Hc'|]. split.
    + unfold stopRecording. cbn. by rewrite Hc'.
    + destruct (disconnect_effect _ Hcr') as (_ & _ & Hcloud2 & _).
      rewrite Hcloud2, Hc'. apply app_nil_r.
Qed.

Lemma disconnect_closes_session_once_witness :
  let evs := [SocketRecording (start_message 44100); AuthDone 0 AuthClient;
              SocketData [1; 2]] in
  recording (run connect evs) = true /\
  speechClient (cloudSpeechApi (run connect evs)) = Some 0%nat /\
  ended 0%nat (cloud (step (run connect evs) SocketDisconnect)) = 1%nat.
Proof.
  split; [reflexivity|]. split; [reflexivity|].
  apply (disconnect_closes_session_once
           [SocketRecording (start_message 44100); AuthDone 0 AuthClient;
            SocketData [1; 2]] 0%nat eq_refl eq_refl eq_refl).
Defined.

(** A message that carries an error invokes the callback even when it
    has no results: the listener tests [response.error] first. *)
Lemma error_message_invokes_callback :
  let response := {| stream_error := Some "quota exceeded";
                     stream_results := None |} in
  let evs := [SocketRecording (start_message 44100); AuthDone 0 AuthClient] in
  stream_results response = None /\
  on_data response =
    [{| type := type_error; status_recording := false;
        status_data := None; status_error := Some "quota exceeded" |}] /\
  sent (step (run connect evs) (StreamData 0%nat response)) =
    sent (run connect evs) ++
    [("recordingError", {| Wire.recording := Some false; Wire.data := None;
                           Wire.error_ := Some "quota exceeded" |})] /\
  ~ (forall response : streaming_response,
       stream_results response = None \/ stream_results response = Some [] ->
       on_data response = []).
Proof.
  intros response evs.
  split; [reflexivity|]. split; [reflexivity|]. split; [reflexivity|].
  intros H. specialize (H response (or_introl eq_refl)). discriminate H.
Qed.

(** C10.  The listener for cloud messages passes a data-type status to
    the callback only for a message without error whose result list is
    present and non-empty; a message without error whose results are
    absent or empty leads to no callback at all, and a message with an
    error leads to exactly one callback, of type error, with the
    recording flag false and no data, whatever its results.  Hence, on
    every connection, every [recordingData] event of the streaming path
    carries a non-empty result list. *)
Theorem data_callback_only_for_results
    (response : streaming_response) (evs : list event) :
  (forall st, In st (on_data response) -> type st = type_data ->
     stream_error response = None /\
     exists r rs, stream_results response = Some (r :: rs) /\
                  status_data st = Some (r :: rs)) /\
  (stream_error response = None ->
   stream_results response = None \/ stream_results response = Some [] ->
   on_data response = []) /\
  (forall name p, In (name, p) (sent (run connect evs)) ->
     name = "recordingData" -> Wire.recording p <> None ->
     exists r rs, Wire.data p = Some (r :: rs)) /\
  (forall err, stream_error response = Some err ->
     on_data response =
       [{| type := type_error; status_recording := false;
           status_data := None; status_error := Some err |}]) /\
  (forall r rs, stream_error response = None ->
     stream_results response = Some (r :: rs) ->
     on_data response =
       [{| type := type_data; status_recording := true;
           status_data := Some (r :: rs); status_error := None |}]).
Proof.
  split; [|split; [|split; [|split]]].
  - unfold on_data. intros st Hin Ht.
    destruct (stream_error response) as [err|].
    + destruct Hin as [<-|[]]. discriminate.
    + destruct (stream_results response) as [[|r rs]|]; try done.
      destruct Hin as [<-|[]]. eauto.
  - unfold on_data. intros -> [-> | ->]; done.
  - intros name p Hin Hname Hrec.
    pose proof (ok_sent _ _ _ _ _ (ok_run connect evs ok_connect)) as Hs.
    rewrite Forall_forall in Hs. apply list_elem_of_In in Hin.
    exact (Hs _ Hin Hname Hrec).
  - unfold on_data. by intros err ->.
  - unfold on_data. by intros r rs -> ->.
Qed.

Lemma data_callback_only_for_results_witness :
  let silent := {| stream_error := None; stream_results := Some [] |} in
  let spoken := {| stream_error := None;
                   stream_results := Some [{| Wire.alternatives := ["hello"];
                                              Wire.isFinal := true |}] |} in
  let evs := [SocketRecording (start_message 44100); AuthDone 0 AuthClient;
              StreamData 0%nat silent; StreamData 0%nat spoken] in
  on_data silent = [] /\
  exists r rs,
    Wire.data {| Wire.recording := Some true;
                 Wire.data := stream_results spoken;
                 Wire.error_ := None |} = Some (r :: rs).
Proof.
  intros silent spoken evs.
  destruct (data_callback_only_for_results silent evs) as (_ & Hnone & Hall & _).
  split.
  - apply Hnone; [reflexivity|by right].
  - apply (Hall "recordingData"); [|reflexivity|discriminate].
    right. left. reflexivity.
Defined.

End Sessions.

(* ===================================================================== *)
(** ** File submission                                                    *)
(* ===================================================================== *)

Section FileSubmission.
Import JS Client.

Lemma prefix_empty (s : string) : String.prefix "" s = true.
Proof. by destruct s. Qed.

Lemma prefix_semicolon (c : ascii) (s : string) :
  String.prefix ";" (String c s) = if ascii_dec ";" c then true else false.
Proof.
  change (String.prefix ";" (String c s))
    with (if ascii_dec ";" c then String.prefix "" s else false).
  destruct (ascii_dec ";" c); [apply prefix_empty|done].
Qed.

Lemma append_cons (c : ascii) (s t : string) :
  (String c s ++ t)%string = String c (s ++ t)%string.
Proof. reflexivity. Qed.

Lemma append_nil (t : string) : ("" ++ t)%string = t.
Proof. reflexivity. Qed.

Lemma length_append (s t : string) :
  String.length (s ++ t)%string = (String.length s + String.length t)%nat.
Proof.
  induction s as [|c s IH]; [done|].
  rewrite append_cons. cbn [String.length]. by rewrite IH.
Qed.

Lemma substring_whole_prefix (s t : string) :
  String.substring 0 (String.length s) (s ++ t)%string = s.
Proof.
  induction s as [|c s IH].
  - rewrite append_nil. by destruct t.
  - rewrite append_cons. cbn [String.length String.substring]. by rewrite IH.
Qed.

(** The first [;] of [s;rest] sits right after [s] when [s] has none. *)
Lemma indexOf_semicolon_after (s rest : string) (i : Z) :
  0 <= i -> indexOf_from s ";" i = -1 ->
  indexOf_from (s ++ String ";" rest)%string ";" i = i + Z.of_nat (String.length s).
Proof.
  revert i. induction s as [|c s IH]; intros i Hi Hnone.
  - rewrite append_nil. cbn [indexOf_from]. rewrite prefix_semicolon.
    destruct (ascii_dec ";" ";"); [cbn; lia|done].
  - rewrite append_cons. cbn [indexOf_from String.length] in *.
    rewrite prefix_semicolon in *.
    destruct (ascii_dec ";" c); [lia|].
    rewrite IH by (done || lia). lia.
Qed.

(** The absence of [;] does not depend on where the count starts. *)
Lemma indexOf_from_absent (s pat : string) (i j : Z) :
  0 <= i -> 0 <= j -> indexOf_from s pat i = -1 -> indexOf_from s pat j = -1.
Proof.
  revert i j. induction s as [|c s IH]; intros i j Hi Hj; cbn [indexOf_from].
  - destruct (String.prefix pat ""); [lia|done].
  - destruct (String.prefix pat (String c s)); [lia|].
    apply IH; lia.
Qed.

Lemma indexOf_audio (rest : string) :
  indexOf ("data:audio/" ++ rest)%string "audio/" = 5.
Proof.
  rewrite !append_cons, append_nil. unfold indexOf.
  do 5 (cbn [indexOf_from];
        match goal with
        | |- context [String.prefix ?p ?s] =>
            replace (String.prefix p s) with false by reflexivity
        end).
  cbn [indexOf_from].
  replace (String.prefix "audio/" (String "a" (String "u" (String "d"
             (String "i" (String "o" (String "/" rest)))))))
    with (String.prefix "" rest) by reflexivity.
  by rewrite prefix_empty.
Qed.

Lemma indexOf_semicolon (subtype rest : string) :
  indexOf subtype ";" = -1 ->
  indexOf ("data:audio/" ++ subtype ++ String ";" rest)%string ";" =
    11 + Z.of_nat (String.length subtype).
Proof.
  intros Hnone. rewrite !append_cons, append_nil. unfold indexOf.
  do 11 (cbn [indexOf_from];
         match goal with
         | |- context [String.prefix ?p ?s] =>
             replace (String.prefix p s) with false by reflexivity
         end).
  cbn [Z.add Pos.add Pos.succ].
  apply indexOf_semicolon_after; [lia|].
  by apply (indexOf_from_absent _ _ 0); [lia|lia|].
Qed.

Lemma fileType_of_data_url (subtype rest : string) :
  indexOf subtype ";" = -1 ->
  fileType ("data:audio/" ++ subtype ++ String ";" rest)%string = subtype.
Proof.
  intros Hnone. unfold fileType.
  rewrite indexOf_audio, (indexOf_semicolon _ _ Hnone).
  unfold js_substring. rewrite !length_append. cbn [String.length].
  replace (Z.to_nat _) with 11%nat by lia.
  replace (Z.to_nat _) with (String.length subtype) by lia.
  rewrite !append_cons, append_nil. cbn [String.substring].
  apply substring_whole_prefix.
Qed.

(** C8.  For a data URL [data:audio/<subtype>;<rest>] the subtype the
    client extracts is [<subtype>]; the [encoding] parameter it sends
    is [FLAC] when the subtype, lower-cased, is [flac], and stays
    [LINEAR16] for every other subtype. *)
Theorem processFileField_encoding (subtype rest : string) :
  indexOf subtype ";" = -1 ->
  let result := ("data:audio/" ++ subtype ++ String ";" rest)%string in
  let parameters := snd (processFileField_onload result) in
  fileType result = subtype /\
  (toLowerCase subtype = "flac" ->
   lookup_prop parameters "encoding" = Some (VStr "FLAC")) /\
  (toLowerCase subtype <> "flac" ->
   lookup_prop parameters "encoding" = Some (VStr "LINEAR16")).
Proof.
  intros Hnone result parameters. subst parameters result.
  pose proof (fileType_of_data_url subtype rest Hnone) as Hft.
  split; [exact Hft|].
  unfold processFileField_onload, file_parameters. cbn [snd]. rewrite Hft.
  split; intros Hsub.
  - rewrite Hsub. reflexivity.
  - apply String.eqb_neq in Hsub. rewrite Hsub. reflexivity.
Qed.

Lemma processFileField_encoding_witness :
  indexOf "FLAC" ";" = -1 /\
  lookup_prop (snd (processFileField_onload "data:audio/FLAC;base64,AAAA")) "encoding"
    = Some (VStr "FLAC").
Proof.
  split; [reflexivity|].
  apply (processFileField_encoding "FLAC" "base64,AAAA" eq_refl). reflexivity.
Defined.

Example processFileField_wav :
  processFileField_onload "data:audio/wav;base64,UklGRg==" =
    ("UklGRg==",
     [("language", VStr "en-US"); ("encoding", VStr "LINEAR16");
      ("sampleRate", VNum 16000)]).
Proof. reflexivity. Qed.

End FileSubmission.

(* ===================================================================== *)
(** ** Objects                                                            *)
(* ===================================================================== *)

Section Objects.
Import JS.

Lemma lookup_set_prop_eq (o : object) (k : string) (v : value) :
  lookup_prop (set_prop o k v) k = Some v.
Proof.
  induction o as [|[k' v'] o IH]; cbn.
  - by rewrite String.eqb_refl.
  - destruct (String.eqb k' k) eqn:Hk; cbn; by rewrite Hk.
Qed.

Lemma lookup_set_prop_ne (o : object) (k k' : string) (v : value) :
  k <> k' -> lookup_prop (set_prop o k v) k' = lookup_prop o k'.
Proof.
  intros Hne. induction o as [|[k0 v0] o IH]; cbn.
  - apply String.eqb_neq in Hne. by rewrite Hne.
  - destruct (String.eqb k0 k) eqn:Hk; cbn; [|by rewrite IH].
    apply String.eqb_eq in Hk. subst k0.
    apply String.eqb_neq in Hne. by rewrite Hne.
Qed.

Lemma has_prop_In (o : object) (k : string) :
  has_prop o k = true <-> In k (map fst o).
Proof.
  unfold has_prop. induction o as [|[k' v'] o IH]; cbn; [split; [discriminate|done]|].
  destruct (String.eqb_spec k' k) as [->|Hne].
  - split; [by left|done].
  - rewrite IH. split; [by right|]. by intros [Heq|Hin].
Qed.

Lemma has_prop_keys (o o' : object) (k : string) :
  map fst o = map fst o' -> has_prop o k = has_prop o' k.
Proof.
  intros Hkeys. apply eq_true_iff_eq. by rewrite !has_prop_In, Hkeys.
Qed.

Lemma lookup_is_has (o : object) (k : string) (v : value) :
  lookup_prop o k = Some v -> has_prop o k = true.
Proof. unfold has_prop. by intros ->. Qed.

Lemma has_prop_lookup (o : object) (k : string) :
  has_prop o k = true -> exists v, lookup_prop o k = Some v.
Proof. unfold has_prop. destruct (lookup_prop o k); [eauto|discriminate]. Qed.

Lemma keys_set_prop (o : object) (k : string) (v : value) :
  has_prop o k = true -> map fst (set_prop o k v) = map fst o.
Proof.
  unfold has_prop. induction o as [|[k' v'] o IH]; cbn; [discriminate|].
  destruct (String.eqb k' k) eqn:Hk; cbn; [done|].
  intros H. by rewrite IH.
Qed.

Lemma hasOwnProperty_object (o : object) (k : string) (b : bool) :
  hasOwnProperty (VObj o) k = Ok b ->
  has_prop o "hasOwnProperty" = false /\ has_prop o k = b.
Proof.
  cbn. destruct (has_prop o "hasOwnProperty"); [discriminate|].
  by intros [= <-].
Qed.

Lemma hasOwnProperty_plain (o : object) (k : string) :
  has_prop o "hasOwnProperty" = false ->
  hasOwnProperty (VObj o) k = Ok (has_prop o k).
Proof. cbn. by intros ->. Qed.

End Objects.

(* ===================================================================== *)
(** ** The streaming-option merge                                         *)
(* ===================================================================== *)

Section OptionMerge.
Import JS Adapter.

(** The inner loop leaves a primitive target alone and keeps the key
    list of an object target. *)
Lemma merge_inner_shape (innerOptionsKeys : list string) (target innerOptions : value) :
  match target with
  | VObj t =>
      exists t', fst (merge_inner target innerOptions innerOptionsKeys) = VObj t' /\
                 map fst t' = map fst t
  | _ => fst (merge_inner target innerOptions innerOptionsKeys) = target
  end.
Proof.
  revert target. induction innerOptionsKeys as [|ik rest IH]; intros target.
  - destruct target; cbn; eauto.
  - cbn [merge_inner].
    destruct (hasOwnProperty target ik) as [[|]|e] eqn:Hh.
    2: apply IH.
    2: destruct target; cbn; eauto.
    destruct (get innerOptions ik) as [v|e]; [|destruct target; cbn; eauto].
    destruct target as [| |b|n|s|t]; cbn [assign fst]; try done.
    apply hasOwnProperty_object in Hh as [_ Hk].
    destruct (IH (VObj (set_prop t ik v))) as (t' & Heq & Hkeys).
    exists t'. split; [done|]. by rewrite Hkeys, keys_set_prop.
Qed.

Lemma merge_inner_object (innerOptionsKeys : list string) (target innerOptions : value)
    (t' : object) :
  fst (merge_inner target innerOptions innerOptionsKeys) = VObj t' ->
  exists t, target = VObj t /\ map fst t' = map fst t.
Proof.
  intros Heq. pose proof (merge_inner_shape innerOptionsKeys target innerOptions) as Hs.
  destruct target as [| |b|n|s|t]; try congruence.
  destruct Hs as (t2 & Heq2 & Hkeys). rewrite Heq in Heq2.
  injection Heq2 as <-. eauto.
Qed.

Lemma inner_keys_from_refl so : inner_keys_from so so.
Proof. intros k t' H. eauto. Qed.

Lemma inner_keys_from_trans so1 so2 so3 :
  inner_keys_from so1 so2 -> inner_keys_from so2 so3 -> inner_keys_from so1 so3.
Proof.
  intros H12 H23 k t3 H3. destruct (H23 k t3 H3) as (t2 & H2 & E23).
  destruct (H12 k t2 H2) as (t1 & H1 & E12). exists t1. split; [done|congruence].
Qed.

Lemma inner_keys_from_set (so : object) (k : string) (v : value) :
  (forall t', v = VObj t' ->
     exists t, lookup_prop so k = Some (VObj t) /\ map fst t' = map fst t) ->
  inner_keys_from so (set_prop so k v).
Proof.
  intros Hv k' t' Hl. destruct (String.eqb_spec k k') as [<-|Hne].
  - rewrite lookup_set_prop_eq in Hl. injection Hl as ->. by apply Hv.
  - rewrite lookup_set_prop_ne in Hl by done. eauto.
Qed.

(** The outer loop adds and removes no key, at either level. *)
Lemma merge_options_shape (optionsKeys : list string) (so : object) (options : value) :
  map fst (fst (merge_options so options optionsKeys)) = map fst so /\
  inner_keys_from so (fst (merge_options so options optionsKeys)).
Proof.
  revert so. induction optionsKeys as [|k rest IH]; intros so.
  - cbn. split; [done|apply inner_keys_from_refl].
  - cbn [merge_options].
    destruct (hasOwnProperty (VObj so) k) as [[|]|e] eqn:Hh.
    2: apply IH.
    2: cbn; split; [done|apply inner_keys_from_refl].
    apply hasOwnProperty_object in Hh as [_ Hk].
    destruct (get options k) as [v|e];
      [|cbn; split; [done|apply inner_keys_from_refl]].
    assert (Hstep : forall x,
               (forall t', x = VObj t' ->
                  exists t, lookup_prop so k = Some (VObj t) /\ map fst t' = map fst t) ->
               map fst (set_prop so k x) = map fst so /\
               inner_keys_from so (set_prop so k x)).
    { intros x Hx. split; [by apply keys_set_prop|by apply inner_keys_from_set]. }
    destruct (typeof_object v) eqn:Hty.
    + destruct (Object_keys v) as [iks|e];
        [|cbn; split; [done|apply inner_keys_from_refl]].
      destruct (has_prop_lookup so k Hk) as [target Htarget].
      rewrite Htarget. change (default VUndefined (Some target)) with target.
      destruct (merge_inner target v iks) as [target' thrown] eqn:Hinner.
      destruct (Hstep target') as [Hkeys Hfrom].
      { intros t' ->.
        destruct (merge_inner_object iks target v t') as (t & -> & Ht).
        - by rewrite Hinner.
        - eauto. }
      destruct thrown as [e|]; [done|].
      destruct (IH (set_prop so k target')) as [Hkeys' Hfrom'].
      split; [congruence|by eapply inner_keys_from_trans].
    + destruct (Hstep v) as [Hkeys Hfrom].
      { intros t' ->. discriminate. }
      destruct (IH (set_prop so k v)) as [Hkeys' Hfrom'].
      split; [congruence|by eapply inner_keys_from_trans].
Qed.

Lemma merge_streaming_shape (so : object) (options : value) :
  map fst (fst (merge_streaming so options)) = map fst so /\
  inner_keys_from so (fst (merge_streaming so options)).
Proof.
  unfold merge_streaming.
  destruct (truthy options); [|split; [done|apply inner_keys_from_refl]].
  destruct (Object_keys options); [|split; [done|apply inner_keys_from_refl]].
  apply merge_options_shape.
Qed.

Lemma recognised_keys (so so' : object) (k : string) :
  map fst so = map fst so' -> recognised so k = recognised so' k.
Proof.
  intros Hkeys. unfold recognised. cbn.
  by rewrite (has_prop_keys so so' "hasOwnProperty"), (has_prop_keys so so' k).
Qed.

Lemma filter_recognised_keys (so so' : object) (ks : list string) :
  map fst so = map fst so' ->
  List.filter (recognised so) ks = List.filter (recognised so') ks.
Proof.
  intros Hkeys. apply List.filter_ext. intros k. by apply recognised_keys.
Qed.

(** Keys that are not recognised can be left out of the loop. *)
Lemma merge_options_recognised (optionsKeys : list string) (so : object) (options : value) :
  fst (merge_options so options optionsKeys) =
  fst (merge_options so options (List.filter (recognised so) optionsKeys)).
Proof.
  revert so. induction optionsKeys as [|k rest IH]; intros so; [done|].
  cbn [List.filter]. unfold recognised at 1. cbn [merge_options].
  destruct (hasOwnProperty (VObj so) k) as [[|]|e] eqn:Hh.
  - cbn [merge_options]. rewrite Hh.
    apply hasOwnProperty_object in Hh as [_ Hk].
    destruct (get options k) as [v|e]; [|done].
    destruct (typeof_object v).
    + destruct (Object_keys v) as [iks|e]; [|done].
      destruct (merge_inner _ v iks) as [target' [e|]]; [done|].
      rewrite (filter_recognised_keys so (set_prop so k target'))
        by (by rewrite keys_set_prop).
      apply IH.
    + rewrite (filter_recognised_keys so (set_prop so k v))
        by (by rewrite keys_set_prop).
      apply IH.
  - apply IH.
  - assert (Hall : forall k', recognised so k' = false).
    { intros k'. unfold recognised. cbn in *.
      by destruct (has_prop so "hasOwnProperty"). }
    replace (List.filter (recognised so) rest) with (@nil string); [done|].
    clear -Hall. induction rest as [|k' rest IH]; cbn; [done|]. by rewrite Hall.
Qed.

(** The loop sees the options only through the keys it visits. *)
Lemma merge_options_ext (optionsKeys : list string) (so : object) (o1 o2 : value) :
  (forall k, In k optionsKeys -> get o1 k = get o2 k) ->
  merge_options so o1 optionsKeys = merge_options so o2 optionsKeys.
Proof.
  revert so. induction optionsKeys as [|k rest IH]; intros so Hget; [done|].
  cbn [merge_options]. rewrite <- (Hget k) by (by left).
  assert (Hrest : forall so', merge_options so' o1 rest = merge_options so' o2 rest).
  { intros so'. apply IH. intros k' Hin. apply Hget. by right. }
  destruct (hasOwnProperty (VObj so) k) as [[|]|e]; [|done|done].
  destruct (get o1 k) as [v|e]; [|done].
  destruct (typeof_object v); [|done].
  destruct (Object_keys v) as [iks|e]; [|done].
  destruct (merge_inner _ v iks) as [target' [e|]]; done.
Qed.

Lemma keys_recognised_only (so o : object) :
  map fst (recognised_only so o) = List.filter (recognised so) (map fst o).
Proof.
  unfold recognised_only. induction o as [|[k v] o IH]; cbn; [done|].
  destruct (recognised so k); cbn; by rewrite IH.
Qed.

Lemma lookup_recognised_only (so o : object) (k : string) :
  recognised so k = true ->
  lookup_prop (recognised_only so o) k = lookup_prop o k.
Proof.
  intros Hk. unfold recognised_only. induction o as [|[k' v] o IH]; cbn; [done|].
  destruct (String.eqb_spec k' k) as [->|Hne].
  - rewrite Hk. cbn. by rewrite String.eqb_refl.
  - destruct (recognised so k'); cbn; [|done].
    apply String.eqb_neq in Hne. by rewrite Hne.
Qed.

(** Unrecognised top-level keys have no influence on the merged
    options. *)
Lemma merge_streaming_recognised_only (so o : object) :
  fst (merge_streaming so (VObj o)) =
  fst (merge_streaming so (VObj (recognised_only so o))).
Proof.
  unfold merge_streaming. cbn [truthy Object_keys].
  rewrite merge_options_recognised, keys_recognised_only.
  f_equal. apply merge_options_ext. intros k Hin.
  apply List.filter_In in Hin as [_ Hk]. cbn.
  by rewrite lookup_recognised_only.
Qed.

(** The same on the defaults of the adapter, with what the client
    sends on start plus keys the adapter does not know. *)
Example merge_streaming_defaults :
  merge_streaming default_streamingOptions
    (VObj [("config", VObj [("sampleRate", VNum 44100);
                            ("unknownInner", VBool true)]);
           ("unknownKey", VStr "x");
           ("singleUtterance", VBool true)]) =
    ([("config", VObj [("encoding", VStr "LINEAR16");
                       ("sampleRate", VNum 44100);
                       ("languageCode", VStr "en-US");
                       ("profanityFilter", VBool true);
                       ("speechContext", VNull)]);
      ("interimResults", VBool true);
      ("singleUtterance", VBool true)], None).
Proof. reflexivity. Qed.

Lemma recognised_set_prop (so : object) (k0 k : string) (x : value) :
  has_prop so k0 = true -> recognised (set_prop so k0 x) k = recognised so k.
Proof. intros Hk0. apply recognised_keys. by apply keys_set_prop. Qed.

End OptionMerge.

(* ===================================================================== *)
(** ** Overrides outlive the request that made them                       *)
(* ===================================================================== *)

Section Persistence.
Import JS Adapter.

(** *** One-shot parameters *)

(** A key the parameters do not have keeps its value. *)
Lemma merge_parameters_frame (requestKeys : list string) (initialRequest : object)
    (parameters : value) (k : string) :
  hasOwnProperty parameters k <> Ok true ->
  lookup_prop (fst (merge_parameters initialRequest parameters requestKeys)) k =
    lookup_prop initialRequest k.
Proof.
  intros Hk. revert initialRequest.
  induction requestKeys as [|k0 rest IH]; intros initialRequest; [done|].
  cbn [merge_parameters].
  destruct (hasOwnProperty parameters k0) as [[|]|e] eqn:Hh; [|apply IH|done].
  destruct (get parameters k0) as [v|e]; [|done].
  rewrite IH. apply lookup_set_prop_ne. congruence.
Qed.

(** A recognised key the parameters do have takes their value. *)
Lemma merge_parameters_applied (requestKeys : list string) (initialRequest p : object)
    (k : string) (v : value) :
  has_prop p "hasOwnProperty" = false ->
  lookup_prop p k = Some v ->
  snd (merge_parameters initialRequest (VObj p) requestKeys) = None /\
  (In k requestKeys \/ lookup_prop initialRequest k = Some v ->
   lookup_prop (fst (merge_parameters initialRequest (VObj p) requestKeys)) k = Some v).
Proof.
  intros Hplain Hv. revert initialRequest.
  induction requestKeys as [|k0 rest IH]; intros initialRequest.
  - cbn. split; [done|]. by intros [[]|H].
  - cbn [merge_parameters]. rewrite (hasOwnProperty_plain p k0 Hplain).
    destruct (has_prop p k0) eqn:Hk0.
    + cbn [get]. destruct (IH (set_prop initialRequest k0
                                 (default VUndefined (lookup_prop p k0)))) as [Hnone Happ].
      split; [exact Hnone|]. intros Hin. apply Happ.
      destruct (String.eqb_spec k0 k) as [->|Hne].
      * right. rewrite Hv. apply lookup_set_prop_eq.
      * destruct Hin as [[Heq|Hin]|Hold]; [done|by left|].
        right. by rewrite lookup_set_prop_ne.
    + destruct (IH initialRequest) as [Hnone Happ].
      split; [exact Hnone|]. intros Hin. apply Happ.
      destruct Hin as [[Heq|Hin]|Hold]; [|by left|by right].
      subst k0. apply lookup_is_has in Hv. congruence.
Qed.


(** *** Streaming options *)


Lemma inner_lookup_set_eq (so : object) (k j : string) (x : value) :
  inner_lookup (set_prop so k x) k j = lookup_in x j.
Proof. unfold inner_lookup. by rewrite lookup_set_prop_eq. Qed.

Lemma inner_lookup_set_ne (so : object) (k0 k j : string) (x : value) :
  k0 <> k -> inner_lookup (set_prop so k0 x) k j = inner_lookup so k j.
Proof. intros Hne. unfold inner_lookup. by rewrite lookup_set_prop_ne. Qed.

(** An inner key the client's sub-object does not have keeps its
    value. *)
Lemma merge_inner_frame (innerOptionsKeys : list string) (target innerOptions : value)
    (j : string) :
  ~ In j innerOptionsKeys ->
  lookup_in (fst (merge_inner target innerOptions innerOptionsKeys)) j =
    lookup_in target j.
Proof.
  revert target. induction innerOptionsKeys as [|ik rest IH]; intros target Hj; [done|].
  cbn [merge_inner].
  assert (Hne : ik <> j) by (intros ->; apply Hj; by left).
  assert (Hrest : ~ In j rest) by (intros Hin; apply Hj; by right).
  destruct (hasOwnProperty target ik) as [[|]|e]; [|by apply IH|done].
  destruct (get innerOptions ik) as [x|e]; [|done].
  destruct target as [| |b|n|s|t]; cbn [assign fst]; try done.
  rewrite IH by done. cbn. by apply lookup_set_prop_ne.
Qed.

(** A start request that omits [k.j] leaves [k.j] as it was. *)
Lemma merge_options_frame (optionsKeys : list string) (so : object) (options : value)
    (k j : string) :
  (In k optionsKeys ->
   exists innerOptions,
     get options k = Ok (VObj innerOptions) /\ ~ In j (map fst innerOptions)) ->
  inner_lookup (fst (merge_options so options optionsKeys)) k j = inner_lookup so k j.
Proof.
  revert so. induction optionsKeys as [|k0 rest IH]; intros so Homit; [done|].
  cbn [merge_options].
  assert (Hrest : In k rest ->
            exists innerOptions,
              get options k = Ok (VObj innerOptions) /\ ~ In j (map fst innerOptions)).
  { intros Hin. apply Homit. by right. }
  destruct (hasOwnProperty (VObj so) k0) as [[|]|e] eqn:Hh; [|by apply IH|done].
  apply hasOwnProperty_object in Hh as [_ Hk0].
  destruct (has_prop_lookup so k0 Hk0) as [target Htarget].
  destruct (get options k0) as [v0|e] eqn:Hget; [|done].
  destruct (String.eqb_spec k0 k) as [->|Hne].
  - destruct Homit as (io & Hio & Hj); [by left|].
    rewrite Hget in Hio. injection Hio as ->. cbn [typeof_object Object_keys].
    rewrite Htarget. change (default VUndefined (Some target)) with target.
    pose proof (merge_inner_frame (map fst io) target (VObj io) j Hj) as Hf.
    destruct (merge_inner target (VObj io) (map fst io)) as [target' thrown].
    cbn [fst] in Hf.
    assert (Hset : inner_lookup (set_prop so k target') k j = inner_lookup so k j).
    { rewrite inner_lookup_set_eq, Hf. unfold inner_lookup. by rewrite Htarget. }
    destruct thrown as [e|]; [exact Hset|]. by rewrite IH.
  - destruct (typeof_object v0).
    + destruct (Object_keys v0) as [iks|e]; [|done].
      destruct (merge_inner _ v0 iks) as [target' [e|]].
      * by apply inner_lookup_set_ne.
      * rewrite IH by done. by apply inner_lookup_set_ne.
    + rewrite IH by done. by apply inner_lookup_set_ne.
Qed.

Lemma omits_sound (options : value) (k j : string) (optionsKeys : list string) :
  omits options k j = true ->
  Object_keys options = Ok optionsKeys -> In k optionsKeys ->
  exists innerOptions,
    get options k = Ok (VObj innerOptions) /\ ~ In j (map fst innerOptions).
Proof.
  destruct options as [| |b|n|s|o]; cbn; intros Homit [= <-] Hin; try done.
  - exfalso. apply negb_true_iff in Homit.
    unfold is_index_key in Homit.
    assert (Hex : existsb (String.eqb k) (index_keys (String.length s)) = true);
      [|congruence].
    apply existsb_exists. exists k. split; [done|apply String.eqb_refl].
  - apply has_prop_In, has_prop_lookup in Hin as [x Hx]. rewrite Hx in *.
    destruct x as [| |b|n|s|io]; try done.
    exists io. split; [done|]. apply negb_true_iff in Homit.
    rewrite <- has_prop_In. congruence.
Qed.

Lemma merge_streaming_frame (so : object) (options : value) (k j : string) :
  omits options k j = true ->
  inner_lookup (fst (merge_streaming so options)) k j = inner_lookup so k j.
Proof.
  intros Homit. unfold merge_streaming. destruct (truthy options); [|done].
  destruct (Object_keys options) as [ks|e] eqn:Hks; [|done].
  apply merge_options_frame. intros Hin. by apply (omits_sound _ _ _ ks).
Qed.

Lemma accepts_spec (so : object) (k j : string) :
  accepts so k j = true <->
  exists c, lookup_prop so k = Some (VObj c) /\
            has_prop c j = true /\ has_prop c "hasOwnProperty" = false.
Proof.
  unfold accepts. split.
  - destruct (lookup_prop so k) as [[| |b|n|s|c]|]; try done.
    intros [H1 H2%negb_true_iff]%andb_true_iff. eauto.
  - intros (c & -> & -> & ->). done.
Qed.

Section Applied.
(** The client's options [o] carry [k: {j: v}]. *)
Variables (o innerOptions : object) (k j : string) (v : value).
Hypothesis Hk : lookup_prop o k = Some (VObj innerOptions).
Hypothesis Hj : lookup_prop innerOptions j = Some v.

Lemma merge_inner_applied (innerOptionsKeys : list string) (c : object) :
  has_prop c "hasOwnProperty" = false ->
  exists c',
    merge_inner (VObj c) (VObj innerOptions) innerOptionsKeys = (VObj c', None) /\
    map fst c' = map fst c /\
    (has_prop c j = true ->
     In j innerOptionsKeys \/ lookup_prop c j = Some v ->
     lookup_prop c' j = Some v).
Proof.
  revert c. induction innerOptionsKeys as [|ik rest IH]; intros c Hplain.
  - exists c. split; [done|]. split; [done|]. by intros _ [[]|H].
  - cbn [merge_inner]. rewrite (hasOwnProperty_plain c ik Hplain).
    destruct (has_prop c ik) eqn:Hik.
    + cbn [get assign].
      set (x := default VUndefined (lookup_prop innerOptions ik)).
      assert (Hkeys : map fst (set_prop c ik x) = map fst c)
        by (by apply keys_set_prop).
      destruct (IH (set_prop c ik x)) as (c' & Heq & Hkeys' & Happ).
      { by rewrite (has_prop_keys _ c). }
      exists c'. split; [exact Heq|]. split; [congruence|].
      intros Hcj Hin. apply Happ; [by rewrite (has_prop_keys _ c)|].
      destruct (String.eqb_spec ik j) as [->|Hne].
      * right. subst x. rewrite Hj. apply lookup_set_prop_eq.
      * destruct Hin as [[Heq'|Hin]|Hold]; [done|by left|].
        right. by rewrite lookup_set_prop_ne.
    + destruct (IH c Hplain) as (c' & Heq & Hkeys' & Happ).
      exists c'. split; [exact Heq|]. split; [exact Hkeys'|].
      intros Hcj Hin. apply Happ; [done|].
      destruct Hin as [[Heq'|Hin]|Hold]; [|by left|by right].
      subst ik. congruence.
Qed.

Lemma accepts_set_ne (so : object) (k0 : string) (x : value) :
  k0 <> k -> accepts so k j = true -> accepts (set_prop so k0 x) k j = true.
Proof. intros Hne. unfold accepts. by rewrite lookup_set_prop_ne. Qed.

Lemma merge_options_applied (optionsKeys : list string) (so : object) :
  snd (merge_options so (VObj o) optionsKeys) = None ->
  accepts so k j = true ->
  In k optionsKeys \/ inner_lookup so k j = Some v ->
  inner_lookup (fst (merge_options so (VObj o) optionsKeys)) k j = Some v.
Proof.
  revert so. induction optionsKeys as [|k0 rest IH]; intros so Hnone Hacc Hin.
  - by destruct Hin as [[]|H].
  - cbn [merge_options] in *.
    destruct (hasOwnProperty (VObj so) k0) as [[|]|e] eqn:Hh; [| |done].
    2:{ apply IH; [done|done|].
        destruct Hin as [[->|Hin]|Hold]; [|by left|by right].
        apply hasOwnProperty_object in Hh as [_ Hk0].
        apply accepts_spec in Hacc as (c & Hc & _).
        apply lookup_is_has in Hc. congruence. }
    cbn [get] in *.
    destruct (String.eqb_spec k0 k) as [->|Hne].
    + rewrite Hk in *. cbn [default from_option id typeof_object Object_keys] in *.
      apply accepts_spec in Hacc as (c & Hc & Hcj & Hplain). rewrite Hc in *.
      change (default VUndefined (Some (VObj c))) with (VObj c) in *.
      destruct (merge_inner_applied (map fst innerOptions) c Hplain)
        as (c' & Heq & Hkeys & Happ).
      rewrite Heq in *. apply IH; [done| |].
      * apply accepts_spec. exists c'. rewrite lookup_set_prop_eq.
        split; [done|]. by rewrite !(has_prop_keys c' c).
      * right. rewrite inner_lookup_set_eq. cbn. apply Happ; [done|].
        left. apply has_prop_In. by eapply lookup_is_has.
    + assert (Hin' : forall x, In k rest \/
                       inner_lookup (set_prop so k0 x) k j = Some v).
      { intros x. destruct Hin as [[Heq|Hin]|Hold]; [done|by left|].
        right. by rewrite inner_lookup_set_ne. }
      destruct (typeof_object _).
      * destruct (Object_keys _) as [iks|e]; [|done].
        destruct (merge_inner _ _ iks) as [target' [e|]]; [done|].
        apply IH; [done|by apply accepts_set_ne|apply Hin'].
      * apply IH; [done|by apply accepts_set_ne|apply Hin'].
Qed.

Lemma merge_streaming_applied (so : object) :
  snd (merge_streaming so (VObj o)) = None ->
  accepts so k j = true ->
  inner_lookup (fst (merge_streaming so (VObj o))) k j = Some v.
Proof.
  unfold merge_streaming. cbn [truthy Object_keys]. intros Hnone Hacc.
  apply merge_options_applied; [done|done|].
  left. apply has_prop_In. by eapply lookup_is_has.
Qed.

End Applied.




End Persistence.

(* ===================================================================== *)
(** ** The streaming-option merge, key by key                             *)
(* ===================================================================== *)

Section AllowList.
Import JS Adapter Pruning.

Lemma keys_filter_key (P : string -> bool) (o : object) :
  map fst (List.filter (fun kv => P (fst kv)) o) = List.filter P (map fst o).
Proof.
  induction o as [|[k v] o IH]; cbn; [done|].
  destruct (P k); cbn; by rewrite IH.
Qed.

Lemma lookup_filter_key (P : string -> bool) (o : object) (k : string) :
  P k = true ->
  lookup_prop (List.filter (fun kv => P (fst kv)) o) k = lookup_prop o k.
Proof.
  intros Hk. induction o as [|[k' v] o IH]; cbn; [done|].
  destruct (String.eqb_spec k' k) as [->|Hne].
  - rewrite Hk. cbn. by rewrite String.eqb_refl.
  - destruct (P k'); cbn; [|done].
    apply String.eqb_neq in Hne. by rewrite Hne.
Qed.

Lemma hasOwnProperty_keys (t t' : object) (j : string) :
  map fst t = map fst t' -> hasOwnProperty (VObj t) j = hasOwnProperty (VObj t') j.
Proof.
  intros Hkeys. cbn.
  by rewrite (has_prop_keys t t' "hasOwnProperty"), (has_prop_keys t t' j).
Qed.

(** The inner loop does not change what its target owns. *)
Lemma merge_inner_owns (innerOptionsKeys : list string) (target innerOptions : value)
    (j : string) :
  hasOwnProperty (fst (merge_inner target innerOptions innerOptionsKeys)) j =
    hasOwnProperty target j.
Proof.
  pose proof (merge_inner_shape innerOptionsKeys target innerOptions) as Hs.
  destruct target as [| |b|n|s|t]; try by rewrite Hs.
  destruct Hs as (t' & -> & Hkeys). by apply hasOwnProperty_keys.
Qed.

(** Inner keys the target does not have can be left out of the loop. *)
Lemma merge_inner_skip (innerOptionsKeys : list string) (target innerOptions : value) :
  merge_inner target innerOptions innerOptionsKeys =
  merge_inner target innerOptions
    (List.filter (fun j => negb (unrecognised_in target j)) innerOptionsKeys).
Proof.
  revert target. induction innerOptionsKeys as [|ik rest IH]; intros target; [done|].
  cbn [List.filter]. unfold unrecognised_in at 1. cbn [merge_inner].
  destruct (hasOwnProperty target ik) as [[|]|e] eqn:Hh; cbn [negb].
  - cbn [merge_inner]. rewrite Hh.
    destruct (get innerOptions ik) as [x|e]; [|done].
    destruct target as [| |b|n|s|t]; cbn [assign]; try done.
    apply hasOwnProperty_object in Hh as [_ Hik].
    rewrite IH. f_equal. apply List.filter_ext. intros j.
    unfold unrecognised_in.
    by rewrite (hasOwnProperty_keys (set_prop t ik x) t) by (by apply keys_set_prop).
  - apply IH.
  - cbn [merge_inner]. by rewrite Hh.
Qed.

(** The inner loop sees the client's sub-object only through the keys it
    visits. *)
Lemma merge_inner_ext (innerOptionsKeys : list string) (target v1 v2 : value) :
  (forall j, In j innerOptionsKeys -> get v1 j = get v2 j) ->
  merge_inner target v1 innerOptionsKeys = merge_inner target v2 innerOptionsKeys.
Proof.
  revert target. induction innerOptionsKeys as [|ik rest IH]; intros target Hget; [done|].
  cbn [merge_inner]. rewrite <- (Hget ik) by (by left).
  assert (Hrest : forall t, merge_inner t v1 rest = merge_inner t v2 rest).
  { intros t. apply IH. intros j Hin. apply Hget. by right. }
  destruct (hasOwnProperty target ik) as [[|]|e]; [|done|done].
  destruct (get v1 ik) as [x|e]; [|done].
  destruct (assign target ik x) as [target'|e]; done.
Qed.

Lemma merge_inner_pruned (target : value) (innerOptions : object) :
  merge_inner target (VObj innerOptions) (map fst innerOptions) =
  merge_inner target (VObj (prune_inner target innerOptions))
    (map fst (prune_inner target innerOptions)).
Proof.
  unfold prune_inner.
  rewrite (keys_filter_key (fun j => negb (unrecognised_in target j))).
  rewrite merge_inner_skip. apply merge_inner_ext. intros j Hin.
  apply List.filter_In in Hin as [_ Hj]. cbn.
  by rewrite (lookup_filter_key (fun j => negb (unrecognised_in target j))).
Qed.

Lemma prune_inner_owns (t1 t2 : value) (innerOptions : object) :
  (forall j, hasOwnProperty t1 j = hasOwnProperty t2 j) ->
  prune_inner t1 innerOptions = prune_inner t2 innerOptions.
Proof.
  intros Hsame. unfold prune_inner. apply List.filter_ext. intros [j x].
  unfold unrecognised_in. cbn. by rewrite Hsame.
Qed.

Lemma keys_prune (so o : object) : map fst (prune so o) = map fst o.
Proof. unfold prune. rewrite map_map. by apply map_ext. Qed.

Lemma lookup_prune (so o : object) (k : string) :
  lookup_prop (prune so o) k =
  match lookup_prop o k with
  | Some (VObj innerOptions) =>
      Some (VObj (prune_inner (default VUndefined (lookup_prop so k)) innerOptions))
  | other => other
  end.
Proof.
  unfold prune. induction o as [|[k' v] o IH]; cbn; [done|].
  destruct (String.eqb_spec k' k) as [->|Hne]; [by destruct v|exact IH].
Qed.

(** The outer loop gives the same result for the pruned options, as
    long as the entries the client addresses with an object still own
    what they owned in [so0]. *)
Lemma merge_options_pruned (so0 o : object) (optionsKeys : list string) (so : object) :
  (forall k innerOptions j, lookup_prop o k = Some (VObj innerOptions) ->
     hasOwnProperty (default VUndefined (lookup_prop so k)) j =
     hasOwnProperty (default VUndefined (lookup_prop so0 k)) j) ->
  merge_options so (VObj o) optionsKeys =
  merge_options so (VObj (prune so0 o)) optionsKeys.
Proof.
  revert so. induction optionsKeys as [|k rest IH]; intros so Hinv; [done|].
  cbn [merge_options].
  destruct (hasOwnProperty (VObj so) k) as [[|]|e] eqn:Hh; [|by apply IH|done].
  cbn [get]. rewrite lookup_prune.
  assert (Hother : forall x,
            (forall innerOptions, lookup_prop o k <> Some (VObj innerOptions)) ->
            merge_options (set_prop so k x) (VObj o) rest =
            merge_options (set_prop so k x) (VObj (prune so0 o)) rest).
  { intros x Hno. apply IH. intros k1 io j Hk1.
    rewrite lookup_set_prop_ne; [by eapply Hinv|].
    intros <-. by apply (Hno io). }
  destruct (lookup_prop o k) as [[| |b|n|s|io]|] eqn:Hk;
    cbn [default from_option id typeof_object Object_keys];
    try (apply Hother; intros io'; discriminate); try reflexivity.
  rewrite (prune_inner_owns _ (default VUndefined (lookup_prop so k)) io)
    by (intros j; symmetry; by eapply Hinv).
  rewrite <- merge_inner_pruned.
  pose proof (fun j => merge_inner_owns (map fst io)
                         (default VUndefined (lookup_prop so k)) (VObj io) j) as Howns.
  destruct (merge_inner _ (VObj io) (map fst io)) as [target' [e|]]; [done|].
  cbn [fst] in Howns. apply IH. intros k1 io1 j Hk1.
  destruct (String.eqb_spec k k1) as [<-|Hne].
  - rewrite lookup_set_prop_eq. cbn [default from_option id].
    rewrite Howns. by eapply Hinv.
  - rewrite lookup_set_prop_ne by done. by eapply Hinv.
Qed.

(** Unrecognised inner keys have no influence on the merge. *)
Lemma merge_streaming_pruned (so o : object) :
  merge_streaming so (VObj o) = merge_streaming so (VObj (prune so o)).
Proof.
  unfold merge_streaming. cbn [truthy Object_keys]. rewrite keys_prune.
  by apply merge_options_pruned.
Qed.

(** A key the client's options do not have keeps its value. *)
Lemma merge_options_frame_top (optionsKeys : list string) (so : object)
    (options : value) (k : string) :
  ~ In k optionsKeys ->
  lookup_prop (fst (merge_options so options optionsKeys)) k = lookup_prop so k.
Proof.
  revert so. induction optionsKeys as [|k0 rest IH]; intros so Hk; [done|].
  cbn [merge_options].
  assert (Hne : k0 <> k) by (intros ->; apply Hk; by left).
  assert (Hrest : ~ In k rest) by (intros Hin; apply Hk; by right).
  destruct (hasOwnProperty (VObj so) k0) as [[|]|e]; [|by apply IH|done].
  destruct (get options k0) as [v0|e]; [|done].
  destruct (typeof_object v0).
  - destruct (Object_keys v0) as [iks|e]; [|done].
    destruct (merge_inner _ v0 iks) as [target' [e|]]; cbn [fst].
    + by apply lookup_set_prop_ne.
    + rewrite IH by done. by apply lookup_set_prop_ne.
  - rewrite IH by done. by apply lookup_set_prop_ne.
Qed.

(** A recognised key for which the client gives a non-object value takes
    that value. *)
Lemma merge_options_applied_top (o : object) (k : string) (v : value)
    (optionsKeys : list string) (so : object) :
  lookup_prop o k = Some v -> typeof_object v = false ->
  snd (merge_options so (VObj o) optionsKeys) = None ->
  recognised so k = true ->
  In k optionsKeys \/ lookup_prop so k = Some v ->
  lookup_prop (fst (merge_options so (VObj o) optionsKeys)) k = Some v.
Proof.
  intros Hk Hty. revert so.
  induction optionsKeys as [|k0 rest IH]; intros so Hnone Hrec Hin.
  - by destruct Hin as [[]|H].
  - cbn [merge_options] in Hnone |- *.
    destruct (hasOwnProperty (VObj so) k0) as [[|]|e] eqn:Hh; [| |done].
    2:{ apply IH; [done|done|].
        destruct Hin as [[->|Hin]|Hold]; [|by left|by right].
        unfold recognised in Hrec. by rewrite Hh in Hrec. }
    apply hasOwnProperty_object in Hh as [_ Hk0]. cbn [get] in Hnone |- *.
    destruct (String.eqb_spec k0 k) as [->|Hne].
    + rewrite Hk in Hnone |- *.
      change (default VUndefined (Some v)) with v in Hnone |- *.
      rewrite Hty in Hnone |- *.
      apply IH; [done|by rewrite recognised_set_prop|].
      right. apply lookup_set_prop_eq.
    + assert (Hin' : forall x, In k rest \/ lookup_prop (set_prop so k0 x) k = Some v).
      { intros x. destruct Hin as [[Heq|Hin]|Hold]; [done|by left|].
        right. by rewrite lookup_set_prop_ne. }
      remember (default VUndefined (lookup_prop o k0)) as v0 eqn:Hv0. clear Hv0.
      destruct (typeof_object v0).
      * destruct (Object_keys v0) as [iks|e]; [|done].
        destruct (merge_inner _ v0 iks) as [target' [e|]]; [done|].
        apply IH; [done|by rewrite recognised_set_prop|apply Hin'].
      * apply IH; [done|by rewrite recognised_set_prop|apply Hin'].
Qed.

(** C3.  The merge applied on start is an allow-list with one level of
    nesting.  It writes only to keys the current options already have:
    the top-level keys stay exactly as they were, and an entry that is an
    object afterwards was an object before, with exactly the same inner
    keys.  What the client sends beyond that is ignored at both levels:
    its unrecognised top-level keys, and the unrecognised inner keys of
    its sub-objects, can be taken out of its options without changing
    the result.  What it sends for recognised keys is applied, when the
    merge runs to its end: a non-object value for a recognised top-level
    key replaces the entry, and a value for a recognised inner key of an
    object entry replaces that inner field.  Keys the client does not
    send keep their values, at both levels.  The example of the
    specification evaluates as stated; on the adapter's own defaults the
    same override does nothing at top level and takes effect under
    [config]. *)
Theorem merge_streaming_allow_list (so : object) (options : value) (o : object) :
  map fst (fst (merge_streaming so options)) = map fst so /\
  (forall k t', lookup_prop (fst (merge_streaming so options)) k = Some (VObj t') ->
     exists t, lookup_prop so k = Some (VObj t) /\ map fst t' = map fst t) /\
  fst (merge_streaming so (VObj o)) =
    fst (merge_streaming so (VObj (recognised_only so o))) /\
  merge_streaming
    [("sampleRate", VNum 41000); ("languageCode", VStr "en-US")]
    (VObj [("sampleRate", VNum 16000); ("unknownKey", VStr "x")]) =
    ([("sampleRate", VNum 16000); ("languageCode", VStr "en-US")], None) /\
  merge_streaming so (VObj o) = merge_streaming so (VObj (prune so o)) /\
  (forall k v,
     snd (merge_streaming so (VObj o)) = None ->
     recognised so k = true ->
     lookup_prop o k = Some v -> typeof_object v = false ->
     lookup_prop (fst (merge_streaming so (VObj o))) k = Some v) /\
  (forall k j innerOptions v,
     snd (merge_streaming so (VObj o)) = None ->
     accepts so k j = true ->
     lookup_prop o k = Some (VObj innerOptions) ->
     lookup_prop innerOptions j = Some v ->
     inner_lookup (fst (merge_streaming so (VObj o))) k j = Some v) /\
  (forall k, lookup_prop o k = None ->
     lookup_prop (fst (merge_streaming so (VObj o))) k = lookup_prop so k) /\
  (forall k j, omits options k j = true ->
     inner_lookup (fst (merge_streaming so options)) k j = inner_lookup so k j) /\
  merge_streaming default_streamingOptions
    (VObj [("sampleRate", VNum 16000); ("unknownKey", VStr "x")]) =
    (default_streamingOptions, None) /\
  merge_streaming default_streamingOptions
    (VObj [("config", VObj [("sampleRate", VNum 16000); ("unknownKey", VStr "x")])]) =
    ([("config", VObj [("encoding", VStr "LINEAR16");
                       ("sampleRate", VNum 16000);
                       ("languageCode", VStr "en-US");
                       ("profanityFilter", VBool true);
                       ("speechContext", VNull)]);
      ("interimResults", VBool true);
      ("singleUtterance", VBool false)], None).
Proof.
  destruct (merge_streaming_shape so options) as [Hkeys Hinner].
  split; [exact Hkeys|]. split; [exact Hinner|].
  split; [apply merge_streaming_recognised_only|]. split; [reflexivity|].
  split; [apply merge_streaming_pruned|].
  split.
  { intros k v Hnone Hrec Hk Hty. revert Hnone. unfold merge_streaming.
    cbn [truthy Object_keys]. intros Hnone.
    apply (merge_options_applied_top o k v); try done.
    left. apply has_prop_In. by eapply lookup_is_has. }
  split.
  { intros k j io v Hnone Hacc Hk Hj. by apply (merge_streaming_applied o io). }
  split.
  { intros k Hk. unfold merge_streaming. cbn [truthy Object_keys].
    apply merge_options_frame_top. rewrite <- has_prop_In.
    unfold has_prop. by rewrite Hk. }
  split; [intros k j Homit; by apply merge_streaming_frame|].
  split; reflexivity.
Qed.

Lemma merge_streaming_allow_list_witness :
  let o := [("config", VObj [("sampleRate", VNum 16000); ("bogus", VStr "x")]);
            ("unknownKey", VStr "x");
            ("interimResults", VBool false)] in
  let merged := merge_streaming default_streamingOptions (VObj o) in
  snd merged = None /\
  accepts default_streamingOptions "config" "sampleRate" = true /\
  recognised default_streamingOptions "interimResults" = true /\
  inner_lookup (fst merged) "config" "sampleRate" = Some (VNum 16000) /\
  lookup_prop (fst merged) "interimResults" = Some (VBool false) /\
  lookup_prop (fst merged) "singleUtterance" = Some (VBool false) /\
  inner_lookup (fst merged) "config" "languageCode" = Some (VStr "en-US") /\
  prune default_streamingOptions o =
    [("config", VObj [("sampleRate", VNum 16000)]);
     ("unknownKey", VStr "x");
     ("interimResults", VBool false)].
Proof.
  intros o merged.
  destruct (merge_streaming_allow_list default_streamingOptions (VObj o) o)
    as (_ & _ & _ & _ & _ & Htop & Hnested & Hframe & Hframe_in & _).
  split; [reflexivity|]. split; [reflexivity|]. split; [reflexivity|].
  split.
  { apply (Hnested "config" "sampleRate"
             [("sampleRate", VNum 16000); ("bogus", VStr "x")]); reflexivity. }
  split; [apply Htop; reflexivity|].
  split; [apply (Hframe "singleUtterance"); reflexivity|].
  split; [apply (Hframe_in "config" "languageCode"); reflexivity|reflexivity].
Defined.

End AllowList.

(* ===================================================================== *)
(** ** More on the sample conversion                                      *)
(* ===================================================================== *)

Section ConversionRange.
Import Num Client.

Lemma ToInt16_range (a : number) : - 2 ^ 15 <= ToInt16 a < 2 ^ 15.
Proof.
  destruct a as [|s|q]; cbn [ToInt16]; [lia|lia|]. cbv zeta.
  pose proof (Z.mod_pos_bound (truncate q) (2 ^ 16) ltac:(lia)) as Hm.
  destruct (Z.leb_spec (2 ^ 15) (truncate q mod 2 ^ 16)); lia.
Qed.

(** X1.  Whatever the input holds, NaN, infinities and samples far out of
    range included, every sample of the converted buffer is a signed
    16-bit value. *)
Theorem convertFloat32ToInt16_range (buffer : list number) :
  Forall (fun z => - 2 ^ 15 <= z < 2 ^ 15) (convertFloat32ToInt16 buffer).
Proof.
  rewrite convertFloat32ToInt16_map. apply Forall_forall. intros z Hin.
  apply list_elem_of_In, in_map_iff in Hin as (x & <- & _).
  apply ToInt16_range.
Qed.

Lemma truncate_monotone (p q : Q) : (p <= q)%Q -> truncate p <= truncate q.
Proof.
  destruct p as [n1 d1], q as [n2 d2]. unfold Qle, truncate. cbn [Qnum Qden].
  intros Hle.
  rewrite <- (Z.quot_mul_cancel_r n1 (Z.pos d1) (Z.pos d2)) by lia.
  rewrite <- (Z.quot_mul_cancel_r n2 (Z.pos d2) (Z.pos d1)) by lia.
  rewrite (Z.mul_comm (Z.pos d2) (Z.pos d1)).
  apply Z.quot_le_mono; lia.
Qed.

(** X2.  From -1 upwards the conversion keeps the order of the samples:
    a louder sample never becomes a smaller integer. *)
Theorem convert_sample_monotone (x y : Q) :
  (- (1) <= x)%Q -> (x <= y)%Q ->
  convert_sample (Finite x) <= convert_sample (Finite y).
Proof.
  intros Hx Hxy.
  assert (Hy : (- (1) <= y)%Q) by (eapply Qle_trans; eauto).
  rewrite !convert_sample_finite by done.
  apply truncate_monotone. apply Qmult_le_compat_r; [|done].
  by apply Q.min_le_compat_l.
Qed.

Lemma convert_sample_monotone_witness :
  (- (1) <= - (1 # 2))%Q /\ (- (1 # 2) <= 1 # 3)%Q /\
  convert_sample (Finite (- (1 # 2))) <= convert_sample (Finite (1 # 3)).
Proof.
  assert (H1 : (- (1) <= - (1 # 2))%Q) by (unfold Qle; cbn; lia).
  assert (H2 : (- (1 # 2) <= 1 # 3)%Q) by (unfold Qle; cbn; lia).
  split; [exact H1|]. split; [exact H2|].
  exact (convert_sample_monotone _ _ H1 H2).
Defined.

Lemma truncate_integer (z : Z) : truncate (z # 1) = z.
Proof. unfold truncate. cbn. apply Z.quot_1_r. Qed.

(** X3.  Only the upper side is clamped.  A sample between -2 and just
    below -1 wraps around the 16-bit range and comes out positive. *)
Theorem convert_sample_wraps_below (x : Q) :
  (- (2) <= x)%Q -> (x <= - (32769 # 32767))%Q ->
  convert_sample (Finite x) = truncate (x * (32767 # 1)) + 2 ^ 16 /\
  0 < convert_sample (Finite x).
Proof.
  intros Hlo Hhi. unfold convert_sample. rewrite Math_min_1_finite.
  assert (Hmin : Qmin 1 x = x).
  { unfold Qmin, GenericMinMax.gmin. destruct (1 ?= x)%Q eqn:Hc; [| |done].
    - apply Qeq_alt in Hc. lra.
    - apply Qlt_alt in Hc. lra. }
  rewrite Hmin. cbn [mul_const ToInt16]. cbv zeta.
  assert (Ht : -65534 <= truncate (x * (32767 # 1)) <= -32769).
  { split.
    - rewrite <- (truncate_integer (-65534)). apply truncate_monotone. lra.
    - rewrite <- (truncate_integer (-32769)). apply truncate_monotone. lra. }
  replace (truncate (x * (32767 # 1)) mod 2 ^ 16)
    with (truncate (x * (32767 # 1)) + 2 ^ 16).
  - destruct (Z.leb_spec (2 ^ 15) (truncate (x * (32767 # 1)) + 2 ^ 16)); lia.
  - apply Z.mod_unique with (q := -1); lia.
Qed.

Lemma convert_sample_wraps_below_witness :
  (- (2) <= - (3 # 2))%Q /\ (- (3 # 2) <= - (32769 # 32767))%Q /\
  convert_sample (Finite (- (3 # 2))) = 16386.
Proof.
  assert (H1 : (- (2) <= - (3 # 2))%Q) by (unfold Qle; cbn; lia).
  assert (H2 : (- (3 # 2) <= - (32769 # 32767))%Q) by (unfold Qle; cbn; lia).
  split; [exact H1|]. split; [exact H2|].
  destruct (convert_sample_wraps_below _ H1 H2) as [Heq _]. exact Heq.
Defined.

(** X4.  The conversion works sample by sample: converting two frames
    one after the other gives the same samples as converting them as one
    buffer, and the sample at an index depends on the input at that index
    only. *)
Theorem convertFloat32ToInt16_app (a b : list number) (i : nat) :
  convertFloat32ToInt16 (a ++ b) =
    convertFloat32ToInt16 a ++ convertFloat32ToInt16 b /\
  convertFloat32ToInt16 a !! i = convert_sample <$> a !! i.
Proof.
  rewrite !convertFloat32ToInt16_map. split; [apply map_app|].
  apply list_lookup_fmap.
Qed.

End ConversionRange.

(* ===================================================================== *)
(** ** More on file submission                                            *)
(* ===================================================================== *)

Section FilePayload.
Import JS Client Adapter.

Lemma prefix_char (ch c : ascii) (s : string) :
  String.prefix (String ch "") (String c s) = if ascii_dec ch c then true else false.
Proof.
  change (String.prefix (String ch "") (String c s))
    with (if ascii_dec ch c then String.prefix "" s else false).
  destruct (ascii_dec ch c); [apply prefix_empty|done].
Qed.

Lemma indexOf_char_after (ch : ascii) (s rest : string) (i : Z) :
  0 <= i -> indexOf_from s (String ch "") i = -1 ->
  indexOf_from (s ++ String ch rest)%string (String ch "") i =
    i + Z.of_nat (String.length s).
Proof.
  revert i. induction s as [|c s IH]; intros i Hi Hnone.
  - rewrite append_nil. cbn [indexOf_from]. rewrite prefix_char.
    destruct (ascii_dec ch ch); [cbn; lia|done].
  - rewrite append_cons. cbn [indexOf_from String.length] in *.
    rewrite prefix_char in *.
    destruct (ascii_dec ch c); [lia|].
    rewrite IH by (done || lia). lia.
Qed.

Lemma substring_skip (h t : string) (n m : nat) :
  String.substring (String.length h + n) m (h ++ t)%string = String.substring n m t.
Proof.
  induction h as [|c h IH]; [by rewrite append_nil|].
  rewrite append_cons. cbn [String.length Nat.add String.substring]. apply IH.
Qed.

Lemma substring_whole (s : string) : String.substring 0 (String.length s) s = s.
Proof. induction s as [|c s IH]; cbn; [done|by rewrite IH]. Qed.

(** X5.  The payload sent with a file is exactly what follows the first
    comma of the data URL; a result without any comma is sent whole. *)
Theorem processFileField_payload (header payload : string) :
  indexOf header "," = -1 ->
  fst (processFileField_onload (header ++ String "," payload)%string) = payload /\
  fst (processFileField_onload header) = header.
Proof.
  intros Hnone. unfold processFileField_onload. cbn [fst]. split.
  - unfold indexOf at 1. rewrite indexOf_char_after by (done || lia).
    unfold js_substring_from, js_substring.
    rewrite length_append. cbn [String.length].
    replace (Z.to_nat _) with (String.length header + 1)%nat by lia.
    replace (Z.to_nat _) with (String.length payload) by lia.
    rewrite substring_skip. cbn [String.substring]. apply substring_whole.
  - rewrite Hnone. unfold js_substring_from, js_substring.
    replace (Z.to_nat _) with 0%nat by lia.
    replace (Z.to_nat _) with (String.length header) by lia.
    apply substring_whole.
Qed.

Lemma processFileField_payload_witness :
  indexOf "data:audio/wav;base64" "," = -1 /\
  fst (processFileField_onload "data:audio/wav;base64,UklGRg==") = "UklGRg==".
Proof.
  split; [reflexivity|].
  apply (processFileField_payload "data:audio/wav;base64" "UklGRg==" eq_refl).
Defined.

Lemma merge_parameters_keys (requestKeys : list string) (initialRequest : object)
    (parameters : value) :
  (forall k, In k requestKeys -> has_prop initialRequest k = true) ->
  map fst (fst (merge_parameters initialRequest parameters requestKeys)) =
    map fst initialRequest.
Proof.
  revert initialRequest. induction requestKeys as [|k rest IH];
    intros initialRequest Hin; [done|].
  cbn [merge_parameters].
  assert (Hrest : forall k', In k' rest -> has_prop initialRequest k' = true)
    by (intros k' H; apply Hin; by right).
  destruct (hasOwnProperty parameters k) as [[|]|e]; [|by apply IH|done].
  destruct (get parameters k) as [v|e]; [|done].
  assert (Hkeys : map fst (set_prop initialRequest k v) = map fst initialRequest)
    by (apply keys_set_prop, Hin; by left).
  rewrite IH; [done|].
  intros k' H. rewrite (has_prop_keys _ initialRequest) by done. by apply Hrest.
Qed.

(** X6.  The one-shot merge is an allow-list too: [recogniseFile] leaves
    the key list of the one-shot options as it is, changes no key that
    the parameters do not own, and does not touch the streaming side of
    the adapter. *)
Theorem recogniseFile_allow_list (st : state) (audioData : string) (parameters : value) :
  let st' := fst (recogniseFile st audioData parameters) in
  map fst (nonStreamingOptions st') = map fst (nonStreamingOptions st) /\
  (forall k, hasOwnProperty parameters k <> Ok true ->
     lookup_prop (nonStreamingOptions st') k = lookup_prop (nonStreamingOptions st) k) /\
  speechClient st' = speechClient st /\
  initialRequest st' = initialRequest st /\
  streamingOptions st' = streamingOptions st.
Proof.
  unfold recogniseFile. destruct (truthy parameters); [|done].
  pose proof (merge_parameters_keys (map fst (nonStreamingOptions st))
                (nonStreamingOptions st) parameters) as Hkeys.
  pose proof (fun k => merge_parameters_frame (map fst (nonStreamingOptions st))
                (nonStreamingOptions st) parameters k) as Hframe.
  destruct (merge_parameters _ _ _) as [merged thrown]. cbn in *.
  split; [|done]. apply Hkeys. intros k Hin. by apply has_prop_In.
Qed.

(** X7.  Client and server together: for a data URL
    [data:audio/<subtype>;<rest>], the request the server builds from the
    client's submission has the encoding inferred from the subtype and
    exactly the keys of the server's one-shot options; the [language]
    parameter the client sends is not one of them and is dropped. *)
Theorem file_submission_end_to_end (st : state) (subtype rest : string) :
  indexOf subtype ";" = -1 ->
  has_prop (nonStreamingOptions st) "encoding" = true ->
  let sent := processFileField_onload ("data:audio/" ++ subtype ++ String ";" rest)%string in
  exists request,
    snd (recogniseFile st (fst sent) (VObj (snd sent))) = Ok (request, fst sent) /\
    lookup_prop request "encoding" =
      Some (VStr (if String.eqb (toLowerCase subtype) "flac" then "FLAC" else "LINEAR16")) /\
    map fst request = map fst (nonStreamingOptions st) /\
    has_prop request "language" = has_prop (nonStreamingOptions st) "language".
Proof.
  intros Hnone Henc sent. subst sent. unfold processFileField_onload. cbn [fst snd].
  set (payload := js_substring_from _ _).
  unfold file_parameters. rewrite (fileType_of_data_url subtype rest Hnone).
  set (enc := if String.eqb (toLowerCase subtype) "flac" then "FLAC" else "LINEAR16").
  set (parameters := if String.eqb (toLowerCase subtype) "flac" then _ else _).
  assert (Hplain : has_prop parameters "hasOwnProperty" = false)
    by (subst parameters; by destruct (String.eqb _ "flac")).
  assert (Hlook : lookup_prop parameters "encoding" = Some (VStr enc))
    by (subst parameters enc; by destruct (String.eqb _ "flac")).
  destruct (merge_parameters_applied (map fst (nonStreamingOptions st))
              (nonStreamingOptions st) parameters "encoding" (VStr enc) Hplain Hlook)
    as [Hok Happ].
  pose proof (merge_parameters_keys (map fst (nonStreamingOptions st))
                (nonStreamingOptions st) (VObj parameters)) as Hkeys.
  unfold recogniseFile. cbn [truthy].
  destruct (merge_parameters _ _ _) as [merged thrown]. cbn in *. subst thrown.
  exists merged. split; [done|].
  assert (Hk : map fst merged = map fst (nonStreamingOptions st)).
  { apply Hkeys. intros k Hin. by apply has_prop_In. }
  split; [|split; [exact Hk|by apply has_prop_keys]].
  apply Happ. left. by apply has_prop_In.
Qed.

Lemma file_submission_end_to_end_witness :
  indexOf "flac" ";" = -1 /\
  has_prop (nonStreamingOptions Adapter.init) "encoding" = true /\
  exists request,
    snd (recogniseFile Adapter.init "ZkxhQw=="
           (VObj (snd (processFileField_onload "data:audio/flac;base64,ZkxhQw==")))) =
      Ok (request, "ZkxhQw==") /\
    lookup_prop request "encoding" = Some (VStr "FLAC") /\
    has_prop request "language" = false.
Proof.
  split; [reflexivity|]. split; [reflexivity|].
  destruct (file_submission_end_to_end Adapter.init "flac" "base64,ZkxhQw=="
              eq_refl eq_refl) as (request & Hreq & Henc & _ & Hlang).
  exists request. split; [exact Hreq|]. split; [exact Henc|exact Hlang].
Defined.

End FilePayload.

(* ===================================================================== *)
(** ** Requests that end the process                                      *)
(* ===================================================================== *)

Section Failures.
Import JS Adapter Relay.

Lemma set_nonStreamingOptions_same (st : state) :
  set_nonStreamingOptions st (nonStreamingOptions st) = st.
Proof. by destruct st. Qed.

(** X8.  A one-shot request whose parameters own a property named
    [hasOwnProperty] makes [recogniseFile] throw a [TypeError] on its
    first key: the exception escapes the socket handler, no option is
    changed, no call is queued or made and nothing is emitted.  The
    wording of the message is the engine's and is left open. *)
Theorem recogniseFile_shadowed_hasOwnProperty (w : world) (audioData : string)
    (p : object) :
  crashed w = None ->
  has_prop p "hasOwnProperty" = true ->
  nonStreamingOptions (cloudSpeechApi w) <> [] ->
  let w' := step w (SocketRecogniseFile audioData (VObj p)) in
  (exists message, crashed w' = Some (TypeError message)) /\
  cloudSpeechApi w' = cloudSpeechApi w /\
  waiting w' = waiting w /\ cloud w' = cloud w /\ sent w' = sent w.
Proof.
  intros Hcr Hp Hne. unfold step. rewrite Hcr.
  unfold socket_recogniseFile, recogniseFile. cbn [truthy].
  destruct (nonStreamingOptions (cloudSpeechApi w)) as [|[k v] rest] eqn:Ho; [done|].
  cbn [map fst merge_parameters hasOwnProperty]. rewrite Hp. cbn.
  rewrite <- Ho, set_nonStreamingOptions_same.
  split; [by eexists|done].
Qed.

Lemma recogniseFile_shadowed_hasOwnProperty_witness :
  let w' := step connect (SocketRecogniseFile "AAAA"
                            (VObj [("hasOwnProperty", VNum 1)])) in
  crashed connect = None /\
  (exists message, crashed w' = Some (TypeError message)) /\
  cloudSpeechApi w' = cloudSpeechApi connect /\
  waiting w' = [] /\ cloud w' = [] /\ sent w' = [].
Proof.
  intros w'. split; [reflexivity|].
  apply (recogniseFile_shadowed_hasOwnProperty connect "AAAA"
           [("hasOwnProperty", VNum 1)] eq_refl eq_refl).
  discriminate.
Defined.

Lemma merge_options_null_throws (optionsKeys : list string) (so o : object) (k : string) :
  In k optionsKeys -> recognised so k = true -> lookup_prop o k = Some VNull ->
  snd (merge_options so (VObj o) optionsKeys) <> None.
Proof.
  intros Hin Hrec Hnull. revert so Hin Hrec.
  induction optionsKeys as [|k0 rest IH]; intros so Hin Hrec; [done|].
  cbn [merge_options].
  destruct (hasOwnProperty (VObj so) k0) as [[|]|e] eqn:Hh; [| |done].
  - apply hasOwnProperty_object in Hh as [_ Hk0]. cbn [get].
    destruct (String.eqb_spec k0 k) as [->|Hne].
    + rewrite Hnull. done.
    + assert (Hin' : In k rest) by (by destruct Hin).
      destruct (typeof_object _).
      * destruct (Object_keys _) as [iks|e]; [|done].
        destruct (merge_inner _ _ iks) as [target' [e|]]; [done|].
        apply IH; [done|by rewrite recognised_set_prop].
      * apply IH; [done|by rewrite recognised_set_prop].
  - apply IH; [|done]. destruct Hin as [->|Hin]; [|done].
    unfold recognised in Hrec. by rewrite Hh in Hrec.
Qed.

(** X9.  A start request that gives [null] for any key the adapter
    recognises makes the merge throw ([Object.keys(null)]): no streaming
    call is opened, the callback is never invoked, and the handle stays
    as it was. *)
Theorem startRecording_null_option (st : state) (o : object) (k : string)
    (svc : service_arg) (fresh : stream_id) :
  recognised (streamingOptions st) k = true ->
  lookup_prop o k = Some VNull ->
  let out := startRecording_service st (VObj o) svc fresh in
  thrown out <> None /\ calls out = [] /\ callbacks out = [] /\
  speechClient (next out) = speechClient st /\
  initialRequest (next out) = initialRequest st.
Proof.
  intros Hrec Hnull out. subst out. unfold startRecording_service.
  pose proof (merge_options_null_throws (map fst o) (streamingOptions st) o k) as Hthrow.
  unfold merge_streaming. cbn [truthy Object_keys].
  destruct (merge_options _ _ _) as [merged [e|]]; [done|].
  exfalso. apply Hthrow; [|done|done|done].
  apply has_prop_In. by eapply lookup_is_has.
Qed.

Lemma startRecording_null_option_witness :
  recognised (streamingOptions Adapter.init) "config" = true /\
  thrown (startRecording_service Adapter.init (VObj [("config", VNull)])
            SpeechService 0%nat) <> None.
Proof.
  split; [reflexivity|].
  apply (startRecording_null_option Adapter.init [("config", VNull)] "config"
           SpeechService 0%nat eq_refl eq_refl).
Defined.

(** X10.  When the credential exchange for a start request fails, the
    client's options are merged into the adapter all the same, but no
    streaming call is opened, nothing is emitted to the client, the flag
    and the handle stay as they were, and the exception escapes. *)
Theorem start_auth_failure_not_reported (w : world) (i : nat) (options : value)
    (err : Wire.error) :
  crashed w = None ->
  waiting w !! i = Some (PendingStart options) ->
  let w' := step w (AuthDone i (AuthFailed err)) in
  crashed w' <> None /\
  sent w' = sent w /\ cloud w' = cloud w /\ next_stream w' = next_stream w /\
  recording w' = recording w /\
  speechClient (cloudSpeechApi w') = speechClient (cloudSpeechApi w) /\
  streamingOptions (cloudSpeechApi w') =
    fst (merge_streaming (streamingOptions (cloudSpeechApi w)) options).
Proof.
  intros Hcr Hw. unfold step. rewrite Hcr. unfold auth_done. rewrite Hw.
  unfold startRecording_service. cbn [getSpeechService cloudSpeechApi set_waiting].
  destruct (merge_streaming _ options) as [merged [e|]]; cbn;
    rewrite ?app_nil_r, ?Nat.add_0_r; done.
Qed.

Lemma start_auth_failure_not_reported_witness :
  let w := step connect (SocketRecording (start_message 44100)) in
  crashed w = None /\
  sent (step w (AuthDone 0 (AuthFailed "invalid_grant"))) = [] /\
  crashed (step w (AuthDone 0 (AuthFailed "invalid_grant"))) <> None.
Proof.
  intros w. split; [reflexivity|].
  destruct (start_auth_failure_not_reported w 0
              (VObj [("config", VObj [("sampleRate", VNum 44100)])])
              "invalid_grant" eq_refl eq_refl) as (Hcr & Hsent & _).
  split; [exact Hsent|exact Hcr].
Defined.

(** X11.  A data message that the cloud delivers after a stop sets the
    flag back to true although the handle has been cleared; the next
    audio buffer then reaches [recognise], which throws on the missing
    handle without writing anything. *)
Theorem late_data_rearms_flag (w : world) (id : stream_id)
    (r : Wire.recognition_result) (rs : list Wire.recognition_result) :
  crashed w = None -> (id < next_stream w)%nat ->
  let w1 := step (step w (SocketRecording stop_message))
                 (StreamData id {| stream_error := None;
                                   stream_results := Some (r :: rs) |}) in
  recording w1 = true /\
  speechClient (cloudSpeechApi w1) = None /\
  crashed w1 = None /\
  (forall b, crashed (step w1 (SocketData b)) =
               Some (TypeError "Cannot read property 'write' of null") /\
             cloud (step w1 (SocketData b)) = cloud w1).
Proof.
  intros Hcr Hid w1.
  destruct (stop_effect w Hcr) as (Hrec & Hc & Hcloud & Hsent & Hcr').
  set (w0 := step w (SocketRecording stop_message)) in *.
  assert (Hnext : next_stream w0 = next_stream w).
  { subst w0. unfold step. rewrite Hcr. cbn.
    destruct (speechClient (cloudSpeechApi w)); cbn; lia. }
  assert (Hw1 : recording w1 = true /\ speechClient (cloudSpeechApi w1) = None /\
                crashed w1 = None).
  { subst w1. unfold step. rewrite Hcr'. unfold stream_event.
    rewrite Hnext. apply Nat.ltb_lt in Hid. rewrite Hid. cbn. done. }
  destruct Hw1 as (H1 & H2 & H3). split; [done|]. split; [done|]. split; [done|].
  intros b. unfold step. rewrite H3. unfold socket_data. rewrite H1.
  unfold recognise. rewrite H2. cbn. by rewrite app_nil_r.
Qed.

Lemma late_data_rearms_flag_witness :
  let w := run connect [SocketRecording (start_message 44100); AuthDone 0 AuthClient] in
  let late := {| stream_error := None;
                 stream_results := Some [{| Wire.alternatives := ["bye"];
                                            Wire.isFinal := true |}] |} in
  crashed w = None /\ (0 < next_stream w)%nat /\
  recording (step (step w (SocketRecording stop_message)) (StreamData 0%nat late)) = true.
Proof.
  intros w late. split; [reflexivity|]. split; [cbn; lia|].
  apply (late_data_rearms_flag w 0%nat
           {| Wire.alternatives := ["bye"]; Wire.isFinal := true |} [] eq_refl).
  cbn. lia.
Defined.

(** X12.  While the flag is true and a configured streaming call is
    held, every audio buffer that arrives is written to that call
    unchanged, exactly once and in arrival order; nothing is emitted and
    the flag stays true. *)
Theorem audio_forwarded_in_order (w : world) (id : stream_id) (buffers : list Wire.audio) :
  crashed w = None -> recording w = true ->
  speechClient (cloudSpeechApi w) = Some id ->
  initialRequest (cloudSpeechApi w) = false ->
  let w' := run w (map SocketData buffers) in
  cloud w' = cloud w ++ map (fun b => StreamWrite id (AudioContent b)) buffers /\
  sent w' = sent w /\ recording w' = true /\ crashed w' = None.
Proof.
  revert w. induction buffers as [|b bs IH]; intros w Hcr Hrec Hc Hi.
  - cbn. by rewrite app_nil_r.
  - cbn [map run foldl]. fold (run (step w (SocketData b)) (map SocketData bs)).
    assert (Hstep : step w (SocketData b) =
                    apply_outcome w (recognise (cloudSpeechApi w) b)).
    { unfold step, socket_data. by rewrite Hcr, Hrec. }
    rewrite (recognise_next _ id b Hc Hi) in Hstep.
    destruct (IH (step w (SocketData b))) as (Hcloud & Hsent & Hrec' & Hcr');
      try (rewrite Hstep; cbn; done).
    split; [rewrite Hcloud, Hstep; cbn; by rewrite <- app_assoc|].
    split; [by rewrite Hsent, Hstep|]. by split.
Qed.

Lemma audio_forwarded_in_order_witness :
  let w := run connect [SocketRecording (start_message 44100); AuthDone 0 AuthClient;
                        SocketData [1; 2]] in
  recording w = true /\ speechClient (cloudSpeechApi w) = Some 0%nat /\
  cloud (run w (map SocketData [[3]; [4; 5]])) =
    cloud w ++ [StreamWrite 0%nat (AudioContent [3]);
                StreamWrite 0%nat (AudioContent [4; 5])].
Proof.
  intros w. split; [reflexivity|]. split; [reflexivity|].
  apply (audio_forwarded_in_order w 0%nat [[3]; [4; 5]] eq_refl eq_refl eq_refl eq_refl).
Defined.

End Failures.

(* ===================================================================== *)
(** ** The order of calls on a connection                                 *)
(* ===================================================================== *)

Section CallOrder.
Import JS Adapter Relay Invariant Protocol.

Lemma transition_same (w w' : world) :
  speechClient (cloudSpeechApi w') = speechClient (cloudSpeechApi w) ->
  initialRequest (cloudSpeechApi w') = initialRequest (cloudSpeechApi w) ->
  next_stream w' = next_stream w -> cloud w' = cloud w -> sent w' = sent w ->
  transition w w'.
Proof.
  intros H1 H2 H3 H4 H5. apply t_quiet with (cs := []) (es := []);
    rewrite ?app_nil_r; done.
Qed.

Lemma transition_deliver (w : world) (sts : list status) :
  List.filter is_ready (concat (map (fun st => snd (on_status st)) sts)) = [] ->
  transition w (deliver w sts).
Proof.
  intros Hq. apply t_quiet with (cs := []) (es := concat (map (fun st => snd (on_status st)) sts));
    rewrite ?app_nil_r, ?deliver_cloudSpeechApi, ?deliver_next_stream, ?deliver_cloud;
    try done.
  apply deliver_sent.
Qed.

Lemma step_transition (w : world) (ev : event) : transition w (step w ev).
Proof.
  unfold step. destruct (crashed w); [by apply transition_same|].
  destruct ev as [parameters|audioData parameters|audioData| |i a|i r
                 |id response|id err|id].
  - unfold socket_recording.
    destruct (get parameters "action") as [[| |b|z|a|o]|e]; try by apply transition_same.
    destruct (String.eqb a "start").
    { destruct (get parameters "options"); by apply transition_same. }
    destruct (String.eqb a "stop"); [|by apply transition_same].
    eapply t_stop with (es := [_]); cbn;
      destruct (speechClient (cloudSpeechApi w)); cbn; rewrite ?Nat.add_0_r; done.
  - unfold socket_recogniseFile, recogniseFile.
    destruct (if truthy parameters then _ else _) as [merged [e|]];
      by apply transition_same.
  - unfold socket_data. destruct (recording w); [|by apply transition_same].
    unfold recognise. destruct (speechClient (cloudSpeechApi w)) as [cur|] eqn:Hc.
    + destruct (initialRequest (cloudSpeechApi w)) eqn:Hi.
      * apply t_write with (id := cur)
          (ms := [StreamingConfig (streamingOptions (cloudSpeechApi w));
                  AudioContent audioData]); cbn; rewrite ?Nat.add_0_r; done.
      * apply t_write with (id := cur) (ms := [AudioContent audioData]); cbn;
          rewrite ?Nat.add_0_r; done.
    + apply transition_same; cbn; rewrite ?Hc, ?app_nil_r, ?Nat.add_0_r; done.
  - unfold socket_disconnect. eapply t_stop with (es := []); cbn;
      destruct (speechClient (cloudSpeechApi w)); cbn;
      rewrite ?Nat.add_0_r, ?app_nil_r; done.
  - unfold auth_done. destruct (waiting w !! i) as [[options|request|]|];
      try by apply transition_same.
    + unfold startRecording_service. cbn [cloudSpeechApi set_waiting next_stream].
      destruct (merge_streaming _ options) as [merged [e|]].
      { apply transition_same; cbn; rewrite ?app_nil_r, ?Nat.add_0_r; done. }
      destruct a as [err|]; cbn [getSpeechService].
      { apply transition_same; cbn; rewrite ?app_nil_r, ?Nat.add_0_r; done. }
      eapply t_open; cbn; rewrite ?Nat.add_1_r; done.
    + destruct a as [err|]; cbn; [by apply transition_same|].
      eapply t_quiet with (cs := [_]) (es := []); cbn; rewrite ?app_nil_r; done.
  - unfold rpc_done. destruct (waiting w !! i) as [[options|request|]|];
      try by apply transition_same.
    destruct (recogniseFile_response r) as [response|e]; [|by apply transition_same].
    eapply t_quiet with (cs := []) (es := on_file_response response); cbn;
      rewrite ?app_nil_r; try done.
    unfold on_file_response. by destruct (success response).
  - unfold stream_event. destruct (id <? next_stream w)%nat; [|by apply transition_same].
    apply transition_deliver. unfold on_data.
    destruct (stream_error response); [done|].
    by destruct (stream_results response) as [[|r0 rs]|].
  - unfold stream_event. destruct (id <? next_stream w)%nat; [|by apply transition_same].
    by apply transition_deliver.
  - unfold stream_event. destruct (id <? next_stream w)%nat; [|by apply transition_same].
    by apply transition_deliver.
Qed.

Lemma run_invariant (P : world -> Prop) (w : world) (evs : list event) :
  (forall w0 ev, P w0 -> P (step w0 ev)) -> P w -> P (run w evs).
Proof.
  intros Hstep. revert w. induction evs as [|ev evs IH]; intros w Hw; [done|].
  cbn. apply IH. by apply Hstep.
Qed.

Lemma one_shot_silent (cs : list cloud_call) (id : stream_id) :
  forallb is_one_shot cs = true ->
  written id cs = [] /\ ended id cs = 0%nat /\ opened cs = 0%nat /\ quiet_after_end cs.
Proof.
  induction cs as [|c cs IH]; [done|]. cbn [forallb].
  intros [Hc Hcs]%andb_true_iff. destruct (IH Hcs) as (H1 & H2 & H3 & H4).
  destruct c; try discriminate. done.
Qed.

Lemma writes_silent (cur id : stream_id) (ms : list stream_message) :
  ended id (map (StreamWrite cur) ms) = 0%nat /\
  opened (map (StreamWrite cur) ms) = 0%nat /\
  quiet_after_end (map (StreamWrite cur) ms) /\
  (cur <> id -> written id (map (StreamWrite cur) ms) = []).
Proof.
  induction ms as [|m ms (H1 & H2 & H3 & H4)]; [done|].
  cbn. repeat split; try done.
  intros Hne. destruct (Nat.eqb_spec cur id); [done|]. by apply H4.
Qed.

Lemma opened_app (l1 l2 : list cloud_call) :
  opened (l1 ++ l2) = (opened l1 + opened l2)%nat.
Proof. unfold opened. by rewrite List.filter_app, length_app. Qed.

Lemma acknowledged_app (l1 l2 : list Wire.emitted) :
  acknowledged (l1 ++ l2) = (acknowledged l1 + acknowledged l2)%nat.
Proof. unfold acknowledged. by rewrite List.filter_app, length_app. Qed.

Lemma synchronised_step (w : world) (ev : event) :
  synchronised w -> synchronised (step w ev).
Proof.
  intros [Hack Hopen]. unfold synchronised.
  destruct (step_transition w ev)
    as [cs es _ _ Hn Hc Hcs Hs Hes|es _ _ Hn Hc Hs Hes|e _ _ Hn Hc Hs He
       |id ms _ _ _ Hn Hc Hs];
    rewrite Hn, Hc, Hs, ?acknowledged_app, ?opened_app.
  - destruct (one_shot_silent cs 0%nat Hcs) as (_ & _ & Ho & _).
    unfold acknowledged at 2. rewrite Hes, Ho. cbn. lia.
  - unfold acknowledged at 2. rewrite Hes.
    destruct (speechClient (cloudSpeechApi w)); cbn; lia.
  - unfold acknowledged at 2. cbn. rewrite He. cbn. lia.
  - destruct (writes_silent id 0%nat ms) as (_ & Ho & _). rewrite Ho. lia.
Qed.

(** X13.  On every connection, whatever arrives in whatever order, the
    client has been sent the "ready" acknowledgement
    ([recordingStatusChange] with [recording: true]) exactly as many
    times as the server has opened a streaming call. *)
Theorem ready_once_per_streaming_call (evs : list event) :
  acknowledged (sent (run connect evs)) = opened (cloud (run connect evs)).
Proof.
  assert (Hs : synchronised (run connect evs)).
  { apply run_invariant; [apply synchronised_step|]. by split. }
  destruct Hs as [-> ->]. done.
Qed.

Lemma quiet_after_end_app (cl cs : list cloud_call) :
  quiet_after_end cl -> quiet_after_end cs ->
  (forall id, (0 < ended id cl)%nat -> written id cs = [] /\ ended id cs = 0%nat) ->
  quiet_after_end (cl ++ cs).
Proof.
  induction cl as [|c cl IH]; intros Hcl Hcs Hsil; [done|].
  assert (Hrest : forall id, (0 < ended id cl)%nat ->
                    written id cs = [] /\ ended id cs = 0%nat).
  { intros id Hid. apply Hsil. unfold ended in *. cbn.
    destruct (is_end id c); cbn; lia. }
  destruct c as [id|id m|id|r content]; cbn in *; try by apply IH.
  destruct Hcl as (Hw & He & Hq).
  destruct (Hsil id) as [Hw' He']; [unfold ended; cbn; rewrite Nat.eqb_refl; cbn; lia|].
  rewrite written_app, ended_app, Hw, He, Hw', He'. split; [done|]. split; [done|].
  by apply IH.
Qed.

Lemma quiet_after_end_split (l1 l2 : list cloud_call) (id : stream_id) :
  quiet_after_end (l1 ++ StreamEnd id :: l2) ->
  written id l2 = [] /\ ended id l2 = 0%nat.
Proof.
  induction l1 as [|c l1 IH]; cbn.
  - by intros (Hw & He & _).
  - destruct c; try done. intros (_ & _ & Hq). by apply IH.
Qed.

Lemma quiet_step (w : world) (ev : event) :
  ok w /\ quiet_after_end (cloud w) ->
  ok (step w ev) /\ quiet_after_end (cloud (step w ev)).
Proof.
  intros [Hok Hq]. split; [by apply ok_step|].
  destruct (step_transition w ev)
    as [cs es _ _ _ Hc Hcs _ _|es _ _ _ Hc _ _|e _ _ _ Hc _ _
       |cur ms Hcur _ _ _ Hc _]; rewrite Hc.
  - destruct (one_shot_silent cs 0%nat Hcs) as (_ & _ & _ & Hqs).
    apply quiet_after_end_app; [done|done|].
    intros id _. by destruct (one_shot_silent cs id Hcs) as (? & ? & _).
  - destruct (speechClient (cloudSpeechApi w)) as [cur|] eqn:Hcur;
      [|by rewrite app_nil_r].
    destruct (ok_current _ _ _ _ _ Hok cur Hcur) as (_ & Hend & _).
    apply quiet_after_end_app; [done|done|].
    intros id Hid. split; [done|]. unfold ended. cbn.
    destruct (Nat.eqb_spec cur id) as [->|]; [lia|done].
  - apply quiet_after_end_app; [done|done|]. by intros.
  - destruct (ok_current _ _ _ _ _ Hok cur Hcur) as (_ & Hend & _).
    apply quiet_after_end_app; [done|by apply writes_silent|].
    intros id Hid. destruct (writes_silent cur id ms) as (He & _ & _ & Hw).
    split; [|done]. apply Hw. intros ->. lia.
Qed.

(** X14.  On every connection, once a streaming call has been ended,
    nothing more is ever done on it: no later write and no second end. *)
Theorem nothing_after_end (evs : list event) (l1 l2 : list cloud_call) (id : stream_id) :
  cloud (run connect evs) = l1 ++ StreamEnd id :: l2 ->
  written id l2 = [] /\ ended id l2 = 0%nat.
Proof.
  intros Hsplit. apply (quiet_after_end_split l1). rewrite <- Hsplit.
  apply (run_invariant (fun w => ok w /\ quiet_after_end (cloud w)));
    [apply quiet_step|]. split; [apply ok_connect|done].
Qed.

Lemma nothing_after_end_witness :
  let evs := [SocketRecording (start_message 44100); AuthDone 0 AuthClient;
              SocketData [1]; SocketRecording stop_message;
              SocketRecording (start_message 44100); AuthDone 0 AuthClient;
              SocketData [2]] in
  cloud (run connect evs) =
    [StreamingRecognize 0%nat;
     StreamWrite 0%nat (StreamingConfig
                          (streamingOptions (cloudSpeechApi (run connect evs))));
     StreamWrite 0%nat (AudioContent [1])] ++
    StreamEnd 0%nat ::
    [StreamingRecognize 1%nat;
     StreamWrite 1%nat (StreamingConfig
                          (streamingOptions (cloudSpeechApi (run connect evs))));
     StreamWrite 1%nat (AudioContent [2])] /\
  written 0%nat
    [StreamingRecognize 1%nat;
     StreamWrite 1%nat (StreamingConfig
                          (streamingOptions (cloudSpeechApi (run connect evs))));
     StreamWrite 1%nat (AudioContent [2])] = [].
Proof.
  intros evs. split; [reflexivity|].
  apply (nothing_after_end evs
           [StreamingRecognize 0%nat;
            StreamWrite 0%nat (StreamingConfig
                                 (streamingOptions (cloudSpeechApi (run connect evs))));
            StreamWrite 0%nat (AudioContent [1])]).
  reflexivity.
Defined.

Lemma dropped_step (w : world) (ev : event) (id : stream_id) :
  (id < next_stream w)%nat -> speechClient (cloudSpeechApi w) <> Some id ->
  (id < next_stream (step w ev))%nat /\
  speechClient (cloudSpeechApi (step w ev)) <> Some id /\
  written id (cloud (step w ev)) = written id (cloud w) /\
  ended id (cloud (step w ev)) = ended id (cloud w).
Proof.
  intros Hlt Hne.
  destruct (step_transition w ev)
    as [cs es Hsc _ Hn Hc Hcs _ _|es Hsc _ Hn Hc _ _|e Hsc _ Hn Hc _ _
       |cur ms Hcur Hsc _ Hn Hc _];
    rewrite Hn, Hsc, Hc, written_app, ended_app.
  - destruct (one_shot_silent cs id Hcs) as (-> & -> & _).
    rewrite app_nil_r, Nat.add_0_r. done.
  - split; [done|]. split; [done|].
    destruct (speechClient (cloudSpeechApi w)) as [cur|]; cbn;
      [|by rewrite app_nil_r, Nat.add_0_r].
    unfold ended at 2. cbn.
    destruct (Nat.eqb_spec cur id) as [->|]; [done|].
    cbn. by rewrite app_nil_r, Nat.add_0_r.
  - split; [lia|]. split; [intros [= <-]; lia|]. cbn.
    by rewrite app_nil_r, Nat.add_0_r.
  - rewrite Hcur in Hne. destruct (writes_silent cur id ms) as (-> & _ & _ & Hw).
    rewrite Hw by congruence. by rewrite app_nil_r, Nat.add_0_r.
Qed.

(** X15.  A streaming call whose handle the adapter no longer holds (it
    was stopped, or a second start replaced the handle) is never written
    to or ended afterwards, whatever happens on the connection.  So a
    call replaced by a second start without a stop in between is left
    open for good. *)
Theorem dropped_call_never_touched (w : world) (id : stream_id) (evs : list event) :
  (id < next_stream w)%nat -> speechClient (cloudSpeechApi w) <> Some id ->
  written id (cloud (run w evs)) = written id (cloud w) /\
  ended id (cloud (run w evs)) = ended id (cloud w).
Proof.
  revert w. induction evs as [|ev evs IH]; intros w Hlt Hne; [done|].
  cbn [run foldl]. fold (run (step w ev) evs).
  destruct (dropped_step w ev id Hlt Hne) as (Hlt' & Hne' & Hw & He).
  destruct (IH (step w ev) Hlt' Hne') as [Hw' He']. split; congruence.
Qed.

Lemma dropped_call_never_touched_witness :
  let w := run connect [SocketRecording (start_message 44100); AuthDone 0 AuthClient;
                        SocketRecording (start_message 44100); AuthDone 0 AuthClient] in
  (0 < next_stream w)%nat /\
  speechClient (cloudSpeechApi w) = Some 1%nat /\
  ended 0%nat (cloud (run w [SocketData [1]; SocketRecording stop_message;
                             SocketDisconnect])) = 0%nat.
Proof.
  intros w. split; [cbn; lia|]. split; [reflexivity|].
  destruct (dropped_call_never_touched w 0%nat
              [SocketData [1]; SocketRecording stop_message; SocketDisconnect])
    as [_ He]; [cbn; lia|discriminate|].
  exact He.
Defined.

End CallOrder.

(* ===================================================================== *)
(** ** Client and server together                                         *)
(* ===================================================================== *)

Section ClientServer.
Import JS Adapter Relay Capture.

(** X16.  When the streaming call reports an error, the server clears
    its flag and emits [recordingError], but the client's listener for
    that event changes neither [isRecording] nor the audio context: the
    client goes on capturing and sending exactly as before.  When the
    call ends, the [recordingStatusChange] emitted does stop the
    client. *)
Theorem stream_error_leaves_client_recording (w : world) (id : stream_id)
    (err : Wire.error) (c : Client.state) (channelData : list Num.number) :
  crashed w = None -> (id < next_stream w)%nat ->
  (exists es,
     sent (step w (StreamError id err)) = sent w ++ es /\
     recording (step w (StreamError id err)) = false /\
     Client.isRecording (receive c es) = Client.isRecording c /\
     Client.audioContext (receive c es) = Client.audioContext c /\
     onaudioprocess (receive c es) channelData = onaudioprocess c channelData) /\
  (exists es,
     sent (step w (StreamEnd_ id)) = sent w ++ es /\
     recording (step w (StreamEnd_ id)) = false /\
     Client.isRecording (receive c es) = false /\
     onaudioprocess (receive c es) channelData = []).
Proof.
  intros Hcr Hid. apply Nat.ltb_lt in Hid. unfold step, stream_event.
  rewrite Hcr, Hid. split; eexists; (split; [reflexivity|]); done.
Qed.

Lemma stream_error_leaves_client_recording_witness :
  let w := run connect [SocketRecording (start_message 44100); AuthDone 0 AuthClient] in
  let c := {| Client.isRecording := true; Client.audioContext := Some true;
              Client.called := [] |} in
  crashed w = None /\ (0 < next_stream w)%nat /\
  exists es,
    sent (step w (StreamError 0%nat "deadline exceeded")) = sent w ++ es /\
    recording (step w (StreamError 0%nat "deadline exceeded")) = false /\
    Client.isRecording (receive c es) = true.
Proof.
  intros w c. split; [reflexivity|]. split; [cbn; lia|].
  destruct (stream_error_leaves_client_recording w 0%nat "deadline exceeded" c []
              eq_refl ltac:(cbn; lia)) as [(es & Hsent & Hrec & Hc & _) _].
  exists es. split; [exact Hsent|]. split; [exact Hrec|exact Hc].
Defined.

Lemma lookup_app_length {A} (l : list A) (x : A) : (l ++ [x]) !! length l = Some x.
Proof. by rewrite lookup_app_r, Nat.sub_diag by lia. Qed.

Lemma delete_app_length {A} (l : list A) (x : A) : delete (length l) (l ++ [x]) = l.
Proof.
  induction l as [|a l IH]; [done|]. cbn. f_equal. exact IH.
Qed.

(** What the relay does with a start message and the auth provider's
    positive answer to it, when the merge does not throw. *)
Lemma start_then_ready (w : world) (options : value) :
  crashed w = None ->
  snd (merge_streaming (streamingOptions (cloudSpeechApi w)) options) = None ->
  let w' := run w [SocketRecording (VObj [("action", VStr "start"); ("options", options)]);
                   AuthDone (length (waiting w)) AuthClient] in
  streamingOptions (cloudSpeechApi w') =
    fst (merge_streaming (streamingOptions (cloudSpeechApi w)) options) /\
  speechClient (cloudSpeechApi w') = Some (next_stream w) /\
  initialRequest (cloudSpeechApi w') = true /\
  recording w' = true /\
  cloud w' = cloud w ++ [StreamingRecognize (next_stream w)] /\
  crashed w' = None.
Proof.
  intros Hcr Hnone w'. subst w'. cbn [run foldl].
  assert (H1 : step w (SocketRecording
                         (VObj [("action", VStr "start"); ("options", options)])) =
               set_waiting w (waiting w ++ [PendingStart options])).
  { unfold step. rewrite Hcr. reflexivity. }
  rewrite H1.
  assert (H2 : step (set_waiting w (waiting w ++ [PendingStart options]))
                    (AuthDone (length (waiting w)) AuthClient) =
               apply_outcome (set_waiting w (waiting w))
                 (startRecording_service (cloudSpeechApi w) options SpeechService
                    (next_stream w))).
  { unfold step. cbn [crashed set_waiting]. rewrite Hcr. unfold auth_done.
    cbn [waiting set_waiting]. rewrite lookup_app_length, delete_app_length.
    reflexivity. }
  rewrite H2. unfold startRecording_service.
  destruct (merge_streaming _ options) as [merged [e|]]; [done|].
  cbn. rewrite ?Nat.add_1_r. done.
Qed.

Lemma merge_config_no_throw (so c : object) (j : string) :
  has_prop so "hasOwnProperty" = false ->
  accepts so "config" j = true ->
  snd (merge_streaming so (VObj [("config", VObj c)])) = None.
Proof.
  intros Hplain Hacc. apply accepts_spec in Hacc as (t & Ht & _ & Htplain).
  unfold merge_streaming. cbn [truthy Object_keys map fst merge_options].
  rewrite (hasOwnProperty_plain so "config" Hplain), (lookup_is_has so "config" _ Ht).
  cbn [get lookup_prop]. rewrite String.eqb_refl.
  change (default VUndefined (Some (VObj c))) with (VObj c).
  cbn [typeof_object Object_keys]. rewrite Ht.
  change (default VUndefined (Some (VObj t))) with (VObj t).
  destruct (merge_inner_shape (map fst c) (VObj t) (VObj c)) as (t' & Heq & _).
  assert (Hnone : snd (merge_inner (VObj t) (VObj c) (map fst c)) = None).
  { clear Heq t' Ht. revert t Htplain. generalize (map fst c) as iks.
    induction iks as [|ik rest IH]; intros t Htplain; [done|].
    cbn [merge_inner]. rewrite (hasOwnProperty_plain t ik Htplain).
    destruct (has_prop t ik) eqn:Hik; [|by apply IH].
    cbn [get assign]. apply IH.
    by rewrite (has_prop_keys _ t) by (by apply keys_set_prop). }
  destruct (merge_inner _ _ _) as [target' thrown]. cbn in *. by subst thrown.
Qed.

(** X17.  From the page to the cloud configuration: when the client
    starts at [sampleRate] with phrase hints, and the adapter's [config]
    still is a record with those two fields, then after the start message
    and the auth provider's answer the adapter's options carry that
    sample rate and the hints wrapped as [{phrases: hints}], a new
    streaming call is held and the flag is true. *)
Theorem start_options_reach_adapter (w : world) (sampleRate : Z)
    (options hints : value) :
  crashed w = None ->
  has_prop (streamingOptions (cloudSpeechApi w)) "hasOwnProperty" = false ->
  accepts (streamingOptions (cloudSpeechApi w)) "config" "sampleRate" = true ->
  accepts (streamingOptions (cloudSpeechApi w)) "config" "speechContext" = true ->
  truthy options = true ->
  hasOwnProperty options "speechContext" = Ok true ->
  get options "speechContext" = Ok hints ->
  exists params,
    start_params sampleRate options = Ok params /\
    let w' := run w [SocketRecording params;
                     AuthDone (length (waiting w)) AuthClient] in
    inner_lookup (streamingOptions (cloudSpeechApi w')) "config" "sampleRate" =
      Some (VNum sampleRate) /\
    inner_lookup (streamingOptions (cloudSpeechApi w')) "config" "speechContext" =
      Some (VObj [("phrases", hints)]) /\
    speechClient (cloudSpeechApi w') = Some (next_stream w) /\
    recording w' = true.
Proof.
  intros Hcr Hplain Hrate Hctx Htruthy Hown Hget.
  unfold start_params. rewrite Htruthy, Hown, Hget. eexists. split; [reflexivity|].
  cbn [set_prop String.eqb Ascii.eqb Bool.eqb].
  set (c := [("sampleRate", VNum sampleRate);
             ("speechContext", VObj [("phrases", hints)])]).
  pose proof (merge_config_no_throw _ c _ Hplain Hrate) as Hnone.
  destruct (start_then_ready w (VObj [("config", VObj c)]) Hcr Hnone)
    as (Hopts & Hclient & _ & Hrec & _).
  cbv zeta. rewrite Hopts.
  split; [|split; [|by split]].
  - by apply (merge_streaming_applied [("config", VObj c)] c "config" "sampleRate").
  - by apply (merge_streaming_applied [("config", VObj c)] c "config" "speechContext").
Qed.

Lemma start_options_reach_adapter_witness :
  let options := VObj [("speechContext", VStr "zoo tech")] in
  exists params,
    start_params 44100 options = Ok params /\
    inner_lookup
      (streamingOptions
         (cloudSpeechApi (run connect [SocketRecording params; AuthDone 0 AuthClient])))
      "config" "speechContext" = Some (VObj [("phrases", VStr "zoo tech")]).
Proof.
  intros options.
  destruct (start_options_reach_adapter connect 44100 options (VStr "zoo tech")
              eq_refl eq_refl eq_refl eq_refl eq_refl eq_refl eq_refl)
    as (params & Hparams & _ & Hctx & _).
  exists params. split; [exact Hparams|exact Hctx].
Defined.

End ClientServer.

(* ===================================================================== *)
(** ** The page                                                           *)
(* ===================================================================== *)

Section PageText.
Import Wire Page.

Lemma string_append_assoc (a b c : string) :
  ((a ++ b) ++ c)%string = (a ++ (b ++ c))%string.
Proof.
  induction a as [|x a IH]; [done|].
  rewrite !append_cons. by rewrite IH.
Qed.

Lemma string_append_empty (a : string) : (a ++ "")%string = a.
Proof. induction a as [|x a IH]; [done|]. rewrite append_cons. by rewrite IH. Qed.

Lemma joined_app (l1 l2 : list string) :
  joined (l1 ++ l2) = (joined l1 ++ joined l2)%string.
Proof.
  induction l1 as [|a l1 IH]; [done|].
  cbn [app joined fold_right]. fold (joined (l1 ++ l2)). fold (joined l1).
  by rewrite IH, string_append_assoc.
Qed.

Lemma add_alternatives_joined (sentence : string) (alts : list string) :
  add_alternatives sentence alts = (sentence ++ joined alts)%string.
Proof.
  revert sentence. induction alts as [|a alts IH]; intros sentence.
  - cbn. by rewrite string_append_empty.
  - cbn [add_alternatives foldl]. fold (add_alternatives (sentence ++ a)%string alts).
    rewrite IH. cbn [joined fold_right]. fold (joined alts).
    apply string_append_assoc.
Qed.

Lemma onData_loop_from (data : list recognition_result) (sentence : string) (complete : bool) :
  foldl (fun acc utterances =>
           (add_alternatives (fst acc) (alternatives utterances),
            if isFinal utterances then true else snd acc))
        (sentence, complete) data =
  ((sentence ++ joined (flat_map alternatives data))%string,
   complete || existsb isFinal data).
Proof.
  revert sentence complete. induction data as [|u data IH]; intros sentence complete.
  - cbn. by rewrite string_append_empty, orb_false_r.
  - cbn [foldl fst snd flat_map existsb]. rewrite IH.
    rewrite add_alternatives_joined, joined_app, string_append_assoc.
    f_equal. by destruct (isFinal u), complete.
Qed.

(** X18.  What the page shows for a data event: all transcripts of all
    alternatives of all results, joined in arrival order without a
    separator.  If any result is final, that text (plus a line break)
    replaces the final span and the incomplete span is cleared;
    otherwise it only replaces the incomplete span and the final span
    stays. *)
Theorem onData_page (data : list recognition_result) (p : page) :
  (existsb isFinal data = true ->
   incomplete (onData data p) = EmptyString /\
   final (onData data p) = (joined (flat_map alternatives data) ++ "<br/>")%string) /\
  (existsb isFinal data = false ->
   incomplete (onData data p) = joined (flat_map alternatives data) /\
   final (onData data p) = final p).
Proof.
  unfold onData, onData_loop. rewrite onData_loop_from.
  rewrite append_nil. cbn [orb].
  split; intros ->; done.
Qed.

Lemma onData_page_witness :
  let data := [{| alternatives := ["hello "; "hallo "]; isFinal := false |};
               {| alternatives := ["world"]; isFinal := true |}] in
  existsb isFinal data = true /\
  final (onData data {| incomplete := "hel"; final := "old<br/>" |}) =
    "hello hallo world<br/>".
Proof.
  intros data. split; [reflexivity|].
  apply (onData_page data {| incomplete := "hel"; final := "old<br/>" |}).
  reflexivity.
Defined.

End PageText.

(* ===================================================================== *)
(** ** More on start requests                                             *)
(* ===================================================================== *)

Section StartRequests.
Import JS Adapter Relay Protocol Capture.

(** Without options the client sends the plain start message. *)
Lemma start_params_plain (sampleRate : Z) :
  start_params sampleRate VUndefined = Ok (start_message sampleRate).
Proof. reflexivity. Qed.

Lemma merge_all_not_object (requests : list value) (so : object) (k : string) :
  (forall t, lookup_prop so k <> Some (VObj t)) ->
  forall t, lookup_prop (merge_all so requests) k <> Some (VObj t).
Proof.
  revert so. induction requests as [|options rest IH]; intros so Hso; [done|].
  cbn [merge_all foldl]. fold (merge_all (fst (merge_streaming so options)) rest).
  apply IH. intros t' Ht'.
  destruct (merge_streaming_shape so options) as [_ Hfrom].
  destruct (Hfrom k t' Ht') as (t & Ht & _). by apply (Hso t).
Qed.

(** X19.  A start request that gives a non-object value for a
    recognised key stores that value in place of whatever was there,
    a whole sub-record such as [config] included; and once an entry is
    not an object, no later start request, whatever its options, makes it
    an object again. *)
Theorem primitive_override_is_permanent (so : object) (k : string) (v : value)
    (later : list value) :
  recognised so k = true -> typeof_object v = false ->
  let so1 := fst (merge_streaming so (VObj [(k, v)])) in
  lookup_prop so1 k = Some v /\
  (forall t, lookup_prop (merge_all so1 later) k <> Some (VObj t)).
Proof.
  intros Hrec Hty so1.
  assert (H1 : lookup_prop so1 k = Some v).
  { subst so1. unfold merge_streaming. cbn [truthy Object_keys map fst merge_options].
    unfold recognised in Hrec.
    destruct (hasOwnProperty (VObj so) k) as [[|]|e]; try discriminate.
    cbn [get lookup_prop]. rewrite String.eqb_refl.
    change (default VUndefined (Some v)) with v. rewrite Hty. cbn [fst].
    apply lookup_set_prop_eq. }
  split; [exact H1|]. apply merge_all_not_object.
  intros t Ht. rewrite H1 in Ht. injection Ht as ->. discriminate.
Qed.

Lemma primitive_override_is_permanent_witness :
  let so1 := fst (merge_streaming default_streamingOptions (VObj [("config", VNum 5)])) in
  recognised default_streamingOptions "config" = true /\
  lookup_prop so1 "config" = Some (VNum 5) /\
  lookup_prop
    (merge_all so1 [VObj [("config", VObj [("sampleRate", VNum 44100)])]])
    "config" = Some (VNum 5).
Proof.
  intros so1. split; [reflexivity|].
  destruct (primitive_override_is_permanent default_streamingOptions "config" (VNum 5)
              [VObj [("config", VObj [("sampleRate", VNum 44100)])]] eq_refl eq_refl)
    as [H1 _].
  split; [exact H1|reflexivity].
Defined.

(** X20.  A stop that arrives while a start is still waiting for the
    auth provider does not cancel it: when the provider answers, the
    streaming call is opened all the same, the handle is set and the flag
    becomes true. *)
Theorem stop_does_not_cancel_pending_start (w : world) (i : nat) (options : value) :
  crashed w = None ->
  waiting w !! i = Some (PendingStart options) ->
  snd (merge_streaming (streamingOptions (cloudSpeechApi w)) options) = None ->
  let w' := run w [SocketRecording stop_message; AuthDone i AuthClient] in
  recording w' = true /\
  speechClient (cloudSpeechApi w') = Some (next_stream w) /\
  cloud w' = cloud w ++ match speechClient (cloudSpeechApi w) with
                        | Some id => [StreamEnd id]
                        | None => []
                        end ++ [StreamingRecognize (next_stream w)] /\
  crashed w' = None.
Proof.
  intros Hcr Hw Hnone w'. subst w'. cbn [run foldl].
  set (w0 := step w (SocketRecording stop_message)).
  assert (H0 : crashed w0 = None /\ waiting w0 = waiting w /\
               next_stream w0 = next_stream w /\
               streamingOptions (cloudSpeechApi w0) = streamingOptions (cloudSpeechApi w) /\
               cloud w0 = cloud w ++ match speechClient (cloudSpeechApi w) with
                                     | Some id => [StreamEnd id]
                                     | None => []
                                     end).
  { subst w0. unfold step. rewrite Hcr. cbn.
    destruct (speechClient (cloudSpeechApi w)); cbn; rewrite ?Nat.add_0_r; done. }
  destruct H0 as (Hcr0 & Hw0 & Hn0 & Hso0 & Hc0).
  unfold step. rewrite Hcr0. unfold auth_done. rewrite Hw0, Hw.
  unfold startRecording_service. cbn [cloudSpeechApi set_waiting next_stream getSpeechService].
  rewrite Hso0. destruct (merge_streaming _ options) as [merged [e|]]; [done|].
  cbn. rewrite Hc0, Hn0, <- app_assoc. done.
Qed.

Lemma stop_does_not_cancel_pending_start_witness :
  let w := step connect (SocketRecording (start_message 44100)) in
  crashed w = None /\
  recording (run w [SocketRecording stop_message; AuthDone 0 AuthClient]) = true.
Proof.
  intros w. split; [reflexivity|].
  apply (stop_does_not_cancel_pending_start w 0
           (VObj [("config", VObj [("sampleRate", VNum 44100)])])
           eq_refl eq_refl eq_refl).
Defined.

End StartRequests.
